(** * functionary/inference.py: tool-choice resolution, stop sequences, trimming

    A shallow embedding of the control layer of [functionary/inference.py]
    and the properties its specification states about it.

    Python values are modelled as follows:
    - token ids ([int]) are [Z]; token-id lists are [list Z];
    - [str] is [string];
    - exceptions are an explicit [exn] type carried by [result];
    - the list object handed to [enforce_code_interpreter], which the code
      updates in place, lives in a store [gmap loc (list Tool)]. *)

From Stdlib Require Import ZArith String Ascii.
From stdpp Require Import base tactics option list sorting gmap strings.

Local Open Scope Z_scope.

(** ** Python primitives *)

Module Py.

(** Python exceptions that the modelled functions can raise. *)
Inductive exn : Type :=
| AssertionError (msg : string)
| AttributeError
| IndexError
| TypeError
| ValidationError.

Inductive result (A : Type) : Type :=
| Ok (a : A)
| Raise (e : exn).
Global Arguments Ok {A} a.
Global Arguments Raise {A} e.

Definition bind {A B} (r : result A) (k : A → result B) : result B :=
  match r with
  | Ok a => k a
  | Raise e => Raise e
  end.

Section slices.
Context {A : Type}.

(** [len(l)] as a Python int. *)
Definition len (l : list A) : Z := Z.of_nat (length l).

(** Normalisation of a slice bound: a negative bound counts from the
    end, and every bound is clamped to [0 .. len]. *)
Definition clamp (n i : Z) : Z :=
  if i <? 0 then Z.max (i + n) 0 else Z.min i n.

(** [l[i:]] *)
Definition slice_from (l : list A) (i : Z) : list A :=
  drop (Z.to_nat (clamp (len l) i)) l.

(** [l[:j]] *)
Definition slice_to (l : list A) (j : Z) : list A :=
  take (Z.to_nat (clamp (len l) j)) l.
End slices.

(** [sorted(l, key=key)]: Python's sort is stable, so elements with equal
    keys keep their relative order.  Insertion from the right, placing an
    element in front of the first one whose key is not smaller. *)
Section sorted.
Context {A : Type} (key : A → Z).

Fixpoint insert_by_key (x : A) (l : list A) : list A :=
  match l with
  | [] => [x]
  | y :: l' =>
      if key x <=? key y then x :: y :: l' else y :: insert_by_key x l'
  end.

Fixpoint sorted (l : list A) : list A :=
  match l with
  | [] => []
  | x :: l' => insert_by_key x (sorted l')
  end.
End sorted.

End Py.

Import Py.

(** ** Post-generation trimmer: [remove_stop_tokens_from_end] *)

(** The [for seg in sorted_sequences] loop of the function, with its two
    nested tests and the early [return]. *)
Fixpoint strip_first_hit (token_ids : list Z) (segs : list (list Z)) : list Z :=
  match segs with
  | [] => token_ids
  | seg :: rest =>
      if len token_ids >=? len seg then
        if bool_decide (slice_from token_ids (- len seg) = seg)
        then slice_to token_ids (- len seg)
        else strip_first_hit token_ids rest
      else strip_first_hit token_ids rest
  end.

Definition remove_stop_tokens_from_end
    (token_ids : list Z) (stop_sequences : list (list Z)) : list Z :=
  let sorted_sequences := sorted (λ x, - len x) stop_sequences in
  strip_first_hit token_ids sorted_sequences.

(** ** Tools, functions and tool choices *)

(** Python dict literals such as [PYTHON_RUN_TOOL] and parameter schemas:
    string-keyed objects, kept as association lists in source order. *)
#[warnings="-register-all"]
Inductive json : Type :=
| JStr (s : string)
| JObj (fields : list (string * json)).

(** [d.get(k)] on an association list. *)
Fixpoint assoc (k : string) (fields : list (string * json)) : option json :=
  match fields with
  | [] => None
  | (k', v) :: rest => if bool_decide (k = k') then Some v else assoc k rest
  end.

(** Modelled from the spec: the declarations of [Function] and [Tool] are
    in [functionary/openai_types.py], which is not among the sources.  The
    spec's data model gives a tool a name, a description, a parameter schema
    and a type discriminator; the code reads [tool.type],
    [tool.function.name], [tool.function.description] (compared with the
    empty string) and [tool.function.parameters] (compared with [None]). *)
Record Function : Type := mkFunction {
  name : string;
  description : string;
  parameters : option json;
}.

(** Modelled from the spec: the missing [Tool] declaration, a function
    schema together with its type discriminator (["function"] or the
    sentinel ["code_interpreter"]). *)
Record Tool : Type := mkTool {
  type : string;
  function : Function;
}.

(** [Union[str, Tool]] *)
Inductive ToolChoice : Type :=
| ChoiceStr (s : string)
| ChoiceTool (t : Tool).

(** Modelled from the spec: [parse_obj] is the validating constructor of
    the missing [Function] and [Tool] declarations; it builds the object
    from a dict, field by field.  An absent description or parameter schema
    gives the values that [enforce_tool_choice] tests a bare reference for
    (the empty string and [None]); an absent ["type"] gives a generic
    ["function"] tool.  [PYTHON_RUN_TOOL] spells out every field. *)
Definition Function_parse_obj (j : json) : result Function :=
  match j with
  | JObj fields =>
      match assoc "name" fields with
      | Some (JStr n) =>
          match assoc "description" fields with
          | Some (JStr d) => Ok (mkFunction n d (assoc "parameters" fields))
          | Some (JObj _) => Raise ValidationError
          | None => Ok (mkFunction n "" (assoc "parameters" fields))
          end
      | _ => Raise ValidationError
      end
  | JStr _ => Raise ValidationError
  end.

Definition Tool_parse_obj (j : json) : result Tool :=
  match j with
  | JObj fields =>
      match assoc "function" fields with
      | Some f =>
          bind (Function_parse_obj f) (λ fn,
            match assoc "type" fields with
            | Some (JStr ty) => Ok (mkTool ty fn)
            | Some (JObj _) => Raise ValidationError
            | None => Ok (mkTool "function" fn)
            end)
      | None => Raise ValidationError
      end
  | JStr _ => Raise ValidationError
  end.

Definition PYTHON_RUN_TOOL : json :=
  JObj [
    ("type", JStr "function");
    ("function", JObj [
      ("name", JStr "python");
      ("description", JStr "When you send a message containing Python code to python, it will be executed in a stateful Jupyter notebook environment. python will respond with the output of the execution or time out after 60.0 seconds. The drive at '/mnt/data' can be used to save and persist user files.");
      ("parameters", JObj [
        ("type", JStr "object");
        ("properties", JObj [])
      ])
    ])
  ].

(** The tool that [Tool.parse_obj(PYTHON_RUN_TOOL)] builds. *)
Definition python_tool : Tool :=
  mkTool "function"
    (mkFunction "python"
       "When you send a message containing Python code to python, it will be executed in a stateful Jupyter notebook environment. python will respond with the output of the execution or time out after 60.0 seconds. The drive at '/mnt/data' can be used to save and persist user files."
       (Some (JObj [("type", JStr "object"); ("properties", JObj [])]))).

(** [needle in hay] on strings. *)
Fixpoint mentions (needle hay : string) : bool :=
  String.prefix needle hay ||
  match hay with
  | EmptyString => false
  | String _ hay' => mentions needle hay'
  end.

(** ** Tool-choice resolver: [enforce_tool_choice] *)

(** The message of the failed assertion, i.e. the spec's
    [InvalidToolChoice] error. *)
Definition InvalidToolChoice (fname : string) : exn :=
  AssertionError
    ("Invalid value for 'tool_choice': no function named " +:+ fname +:+
     " was specified in the 'tools' parameter").

Definition is_bare (t : Tool) : bool :=
  bool_decide (description (function t) = "") &&
  match parameters (function t) with None => true | Some _ => false end.

(** [[tool for tool in tools if tool.function.name == fname]] *)
Fixpoint tools_named (fname : string) (tools : list Tool) : list Tool :=
  match tools with
  | [] => []
  | tool :: rest =>
      if bool_decide (name (function tool) = fname)
      then tool :: tools_named fname rest
      else tools_named fname rest
  end.

Definition enforce_tool_choice
    (tool_choice : ToolChoice) (tools : option (list Tool))
    : result (option (list Tool)) :=
  match tool_choice with
  | ChoiceStr s =>
      if bool_decide (s = "none") then Ok (Some []) else Ok tools
  | ChoiceTool tc =>
      if is_bare tc then
        match tools with
        | None => Raise TypeError
        | Some declared =>
            let tools' := tools_named (name (function tc)) declared in
            if len tools' >? 0 then Ok (Some tools')
            else Raise (InvalidToolChoice (name (function tc)))
        end
      else Ok (Some [tc])
  end.

(** ** Code-interpreter substituter: [enforce_code_interpreter] *)

(** The function assigns into the list it is given ([tools[i] = ...]), so
    list objects live in a store and the argument is a reference. *)
Definition loc : Type := positive.
Abbreviation store := (gmap loc (list Tool)).

(** [tools[i] = v] on the list object at [l]. *)
Definition setitem (l : loc) (i : nat) (v : Tool) (σ : store) : store :=
  match σ !! l with
  | Some ts => <[l := <[i := v]> ts]> σ
  | None => σ
  end.

(** [for i, tool in enumerate(tools)]: [rest] is what remains to be
    enumerated and [i] the index of its head.  The only assignment is
    followed by [break], so the iteration never observes its own update. *)
Fixpoint substitute_loop (l : loc) (i : nat) (rest : list Tool) (σ : store)
    : result store :=
  match rest with
  | [] => Ok σ
  | tool :: rest' =>
      if bool_decide (type tool = "code_interpreter") then
        bind (Tool_parse_obj PYTHON_RUN_TOOL) (λ py, Ok (setitem l i py σ))
      else substitute_loop l (S i) rest' σ
  end.

Definition enforce_code_interpreter (tools : option loc) (σ : store)
    : result (option loc * store) :=
  match tools with
  | None => Ok (None, σ)
  | Some l =>
      bind (substitute_loop l 0 (default [] (σ !! l)) σ) (λ σ',
        Ok (Some l, σ'))
  end.

(** ** Stop-sequence matcher: [StopWordsCriteria] *)

Record StopWordsCriteria : Type := mkStopWordsCriteria {
  stops : list (list Z);
}.

(** The [for stop in self.stops] loop of [__call__]. *)
Fixpoint any_stop_hit (inputs : list Z) (stops : list (list Z)) : bool :=
  match stops with
  | [] => false
  | stop :: rest =>
      if (len inputs >=? len stop) &&
         bool_decide (slice_from inputs (- len stop) = stop)
      then true
      else any_stop_hit inputs rest
  end.

(** [__call__(self, input_ids, scores)]: [input_ids] is a batch of rows,
    of which only row 0 is read; [scores] is ignored. *)
Definition StopWordsCriteria_call {Scores : Type}
    (self : StopWordsCriteria) (input_ids : list (list Z)) (scores : Scores)
    : result bool :=
  match input_ids with
  | [] => Raise IndexError
  | inputs :: _ => Ok (any_stop_hit inputs (stops self))
  end.

(** The tensor a decode step hands to the stopping criterion: a single row
    holding the prompt followed by the tokens generated so far.  This is
    the layout [generate_message] relies on when it recovers the generated
    tokens as [generate_ids[:, inputs.shape[1]:][0]]. *)
Definition decode_step_input_ids (prompt generated : list Z)
    : list (list Z) :=
  [prompt ++ generated].

Definition generated_token_ids (prompt : list Z) (generate_ids : list (list Z))
    : result (list Z) :=
  match (λ row, slice_from row (len prompt)) <$> generate_ids with
  | [] => Raise IndexError
  | row :: _ => Ok row
  end.

(** ** Building the stop sequences in [generate_message] *)

Definition sentinel_quirk_id : Z := 29871.

Section stop_words.
(** [tokenizer.encode(_, add_special_tokens=False)] *)
Variable encode : string → list Z.

(** The body of the [for stop in ...] loop: tokenize, correct the
    tokenizer quirk, append. *)
Definition stop_words_step (stop_words_ids : list (list Z)) (stop : string)
    : list (list Z) :=
  let tok_ids := encode stop in
  let tok_ids :=
    if (len tok_ids >? 1) &&
       bool_decide (tok_ids !! 0%nat = Some sentinel_quirk_id)
    then slice_from tok_ids 1
    else tok_ids in
  stop_words_ids ++ [tok_ids].

(** [kwargs_stops] is [kwargs.get("stops", [])] and [template_stops] is
    [prompt_template.get_stop_tokens_for_generation()]. *)
Definition stop_words_ids (kwargs_stops template_stops : list string)
    : list (list Z) :=
  fold_left stop_words_step (kwargs_stops ++ template_stops) [].
End stop_words.

(** ** Prompt assembler: [prepare_messages_for_inference] *)

(** The template collaborator, as far as this function consumes it. *)
Record PromptTemplate (Dict : Type) : Type := mkPromptTemplate {
  pre_process_messages_before_inference : list Dict → list Dict;
  get_prompt_from_messages : list Dict → list Dict → string;
  get_predefined_function_names : list string;
  get_stop_token_for_function_parameter : string → string;
}.
Arguments pre_process_messages_before_inference {Dict}.
Arguments get_prompt_from_messages {Dict}.
Arguments get_predefined_function_names {Dict}.
Arguments get_stop_token_for_function_parameter {Dict}.

Section prompt.
Context {Dict ChatMessage : Type}.
(** [.dict()] on messages, functions and tools. *)
Variable message_dict : ChatMessage → Dict.
Variable function_dict : Function → Dict.
Variable tool_dict : Tool → Dict.
(** [{"role": "assistant"}] *)
Variable assistant_turn : Dict.
(** [get_prompt_template_from_tokenizer(tokenizer)] *)
Variable prompt_template : PromptTemplate Dict.
(** [tokenizer(text, return_tensors="pt").input_ids] *)
Variable tokenizer : string → list Z.

Definition rendered_prompt
    (messages : list ChatMessage)
    (functions : option (list Function)) (tools : option (list Tool))
    : string :=
  let dic_messages := (message_dict <$> messages) ++ [assistant_turn] in
  let tools_or_functions :=
    match functions with
    | Some (f :: fs) => function_dict <$> (f :: fs)
    | _ =>
        match tools with
        | Some (t :: ts) => tool_dict <$> (t :: ts)
        | _ => []
        end
    end in
  let dic_messages :=
    pre_process_messages_before_inference prompt_template dic_messages in
  get_prompt_from_messages prompt_template dic_messages tools_or_functions.

(** The text that is tokenized: the rendered prompt and whatever the
    tool choice appends to it. *)
Definition final_prompt
    (messages : list ChatMessage)
    (functions : option (list Function)) (tools : option (list Tool))
    (tool_choice : option ToolChoice) : result string :=
  let final_prompt := rendered_prompt messages functions tools in
  let stop_token :=
    get_stop_token_for_function_parameter prompt_template "function" in
  match tool_choice with
  | None => Ok final_prompt
  | Some (ChoiceStr s) =>
      if bool_decide (s = "auto") then Ok final_prompt
      else if bool_decide (s = "none") then
        match get_predefined_function_names prompt_template with
        | [] => Raise IndexError
        | first :: _ => Ok ((final_prompt +:+ first) +:+ stop_token)
        end
      else Raise AttributeError
  | Some (ChoiceTool t) =>
      Ok ((final_prompt +:+ name (function t)) +:+ stop_token)
  end.

Definition prepare_messages_for_inference
    (messages : list ChatMessage)
    (functions : option (list Function)) (tools : option (list Tool))
    (tool_choice : option ToolChoice) : result (list Z) :=
  bind (final_prompt messages functions tools tool_choice) (λ text,
    Ok (tokenizer text)).
End prompt.

(** ** The prompt assembler with collaborators that may raise

    [prepare_messages_for_inference] above takes every collaborator call
    as returning normally.  Here each call may raise instead: the template
    lookup (line 59), [.dict()] on messages, functions and tools, the
    template's methods, the tokenizer and the move to the device.  An
    exception of any of them ends the function, in the order of the
    source. *)

Record PromptTemplate_exn (Dict : Type) : Type := mkPromptTemplate_exn {
  pre_process_messages_before_inference_exn : list Dict → result (list Dict);
  get_prompt_from_messages_exn : list Dict → list Dict → result string;
  get_predefined_function_names_exn : result (list string);
  get_stop_token_for_function_parameter_exn : string → result string;
}.
Arguments pre_process_messages_before_inference_exn {Dict}.
Arguments get_prompt_from_messages_exn {Dict}.
Arguments get_predefined_function_names_exn {Dict}.
Arguments get_stop_token_for_function_parameter_exn {Dict}.

(** [[f(x) for x in l]] where [f] may raise: the first exception ends the
    comprehension. *)
Fixpoint comprehension {A B : Type} (f : A → result B) (l : list A)
    : result (list B) :=
  match l with
  | [] => Ok []
  | x :: l' =>
      bind (f x) (λ y, bind (comprehension f l') (λ ys, Ok (y :: ys)))
  end.

Section prompt_exn.
Context {Dict ChatMessage : Type}.
Variable message_dict : ChatMessage → result Dict.
Variable function_dict : Function → result Dict.
Variable tool_dict : Tool → result Dict.
Variable assistant_turn : Dict.
(** [get_prompt_template_from_tokenizer(tokenizer)] *)
Variable get_prompt_template_from_tokenizer : result (PromptTemplate_exn Dict).
(** [tokenizer(text, return_tensors="pt").input_ids] *)
Variable tokenizer : string → result (list Z).
(** [input_ids.to(device)] *)
Variable to_device : list Z → result (list Z).

Definition prepare_messages_for_inference_exn
    (messages : list ChatMessage)
    (functions : option (list Function)) (tools : option (list Tool))
    (tool_choice : option ToolChoice) : result (list Z) :=
  bind get_prompt_template_from_tokenizer (λ prompt_template,
  bind (comprehension message_dict messages) (λ dic_messages,
  let dic_messages := dic_messages ++ [assistant_turn] in
  bind
    match functions with
    | Some (f :: fs) => comprehension function_dict (f :: fs)
    | _ =>
        match tools with
        | Some (t :: ts) => comprehension tool_dict (t :: ts)
        | _ => Ok []
        end
    end (λ tools_or_functions,
  bind (pre_process_messages_before_inference_exn prompt_template dic_messages)
    (λ dic_messages,
  bind (get_prompt_from_messages_exn prompt_template dic_messages
          tools_or_functions) (λ final_prompt,
  bind
    match tool_choice with
    | None => Ok final_prompt
    | Some (ChoiceStr s) =>
        if bool_decide (s = "auto") then Ok final_prompt
        else if bool_decide (s = "none") then
          bind (get_predefined_function_names_exn prompt_template) (λ names,
            match names with
            | [] => Raise IndexError
            | first :: _ =>
                bind (get_stop_token_for_function_parameter_exn
                        prompt_template "function") (λ stop_token,
                  Ok ((final_prompt +:+ first) +:+ stop_token))
            end)
        else Raise AttributeError
    | Some (ChoiceTool t) =>
        bind (get_stop_token_for_function_parameter_exn
                prompt_template "function") (λ stop_token,
          Ok ((final_prompt +:+ name (function t)) +:+ stop_token))
    end (λ final_prompt,
  bind (tokenizer final_prompt) (λ input_ids,
  to_device input_ids))))))).
End prompt_exn.

(** A collaborator that returns normally on every argument. *)
Definition returns {A B : Type} (f : A → result B) : Prop :=
  ∀ x, ∃ y, f x = Ok y.

(** A template whose methods all return normally. *)
Definition returning_template {Dict : Type} (t : PromptTemplate Dict)
    : PromptTemplate_exn Dict :=
  mkPromptTemplate_exn Dict
    (λ msgs, Ok (pre_process_messages_before_inference t msgs))
    (λ msgs schema, Ok (get_prompt_from_messages t msgs schema))
    (Ok (get_predefined_function_names t))
    (λ stage, Ok (get_stop_token_for_function_parameter t stage)).

(** ** Auxiliary definitions for the statements *)

(** The test [len(l) >= len(seg) and l[-len(seg):] == seg] recognises a
    stop sequence at the end of [l]; an empty stop sequence is recognised
    only at the end of an empty [l], because [l[-0:]] is all of [l]. *)
Definition detects (l seg : list Z) : Prop :=
  seg `suffix_of` l ∧ (seg = [] → l = []).

Definition suffix_test (l seg : list Z) : bool :=
  (len l >=? len seg) && bool_decide (slice_from l (- len seg) = seg).

(** A tool whose function is called [fname]. *)
Definition named (fname : string) (t : Tool) : Prop :=
  name (function t) = fname.

#[global] Instance named_dec fname t : Decision (named fname t) :=
  decide (name (function t) = fname).

(** Sample tools. *)
Definition get_weather : Tool :=
  mkTool "function" (mkFunction "get_weather" "Current weather" None).
Definition get_weather_v2 : Tool :=
  mkTool "function" (mkFunction "get_weather" "Weather, second edition" None).
Definition bare_get_weather : Tool :=
  mkTool "function" (mkFunction "get_weather" "" None).

(** The tokenizer-quirk correction as a function on tokenizations. *)
Definition corrected (tok_ids : list Z) : list Z :=
  match tok_ids with
  | first :: second :: rest =>
      if bool_decide (first = sentinel_quirk_id) then second :: rest
      else tok_ids
  | _ => tok_ids
  end.

(** A template with a visible no-tool marker and parameter marker. *)
Definition demo_template : PromptTemplate string :=
  mkPromptTemplate string
    (λ msgs, msgs)
    (λ msgs _, foldr String.append "" msgs)
    ["all"; "python"]
    (λ _, "<|content|>").

Definition code_interpreter : Tool :=
  mkTool "code_interpreter" (mkFunction "" "" None).

(** A tokenizer that shows the quirk on one marker. *)
Definition demo_encode (s : string) : list Z :=
  if bool_decide (s = "<|stop|>") then [29871; 32002] else [32001].

(** * Properties *)

Example trim_longest :
  remove_stop_tokens_from_end [1; 2; 3; 4] [[4]; [3; 4]; [9]] = [1; 2].
Proof. reflexivity. Qed.

Example trim_empty_marker :
  remove_stop_tokens_from_end [1] [[]] = [1] ∧
  remove_stop_tokens_from_end [] [[]] = [].
Proof. split; reflexivity. Qed.

(** ** Python slices with a negated length as bound *)

Section slice_facts.
Context {A : Type}.
Implicit Types l seg : list A.

Lemma len_nonneg l : 0 ≤ len l.
Proof. unfold len. lia. Qed.

Lemma len_nil_iff l : len l = 0 ↔ l = [].
Proof. unfold len. destruct l; simpl; split; intros; (done || lia). Qed.

(** [l[-0:]] is [l[0:]], the whole list. *)
Lemma slice_from_neg_nil l : slice_from l (- len (@nil A)) = l.
Proof.
  unfold slice_from, clamp. change (- len (@nil A)) with 0. simpl.
  replace (Z.to_nat (0 `min` len l)) with 0%nat
    by (pose proof (len_nonneg l); lia).
  done.
Qed.

(** [l[:-0]] is [l[:0]], the empty list. *)
Lemma slice_to_neg_nil l : slice_to l (- len (@nil A)) = [].
Proof.
  unfold slice_to, clamp. change (- len (@nil A)) with 0. simpl.
  replace (Z.to_nat (0 `min` len l)) with 0%nat
    by (pose proof (len_nonneg l); lia).
  done.
Qed.

Lemma slice_from_neg_len l seg :
  seg ≠ [] → (length seg ≤ length l)%nat →
  slice_from l (- len seg) = drop (length l - length seg) l.
Proof.
  intros Hne Hle. unfold slice_from, clamp, len.
  destruct seg as [|a seg]; [done|]. simpl length in *.
  destruct (Z.ltb_spec (- Z.of_nat (S (length seg))) 0); [|lia].
  f_equal. lia.
Qed.

Lemma slice_to_neg_len l seg :
  seg ≠ [] → (length seg ≤ length l)%nat →
  slice_to l (- len seg) = take (length l - length seg) l.
Proof.
  intros Hne Hle. unfold slice_to, clamp, len.
  destruct seg as [|a seg]; [done|]. simpl length in *.
  destruct (Z.ltb_spec (- Z.of_nat (S (length seg))) 0); [|lia].
  f_equal. lia.
Qed.
End slice_facts.

Lemma suffix_drop_length (l seg : list Z) :
  seg `suffix_of` l ↔
  (length seg ≤ length l)%nat ∧ drop (length l - length seg) l = seg.
Proof.
  split.
  - intros [k ->]. rewrite length_app. split; [lia|].
    replace (length k + length seg - length seg)%nat with (length k) by lia.
    by rewrite drop_app_length.
  - intros [_ Hd]. exists (take (length l - length seg) l).
    by rewrite <- Hd at 2; rewrite take_drop.
Qed.

Lemma suffix_test_spec (l seg : list Z) :
  suffix_test l seg = true ↔ detects l seg.
Proof.
  unfold suffix_test, detects.
  rewrite andb_true_iff, bool_decide_eq_true.
  destruct (decide (seg = [])) as [->|Hne].
  - rewrite slice_from_neg_nil. split.
    + intros [_ ->]. split; [apply suffix_nil | done].
    + intros [_ Hl]. rewrite Hl by done. split; [|done].
      change (len (@nil Z)) with 0. lia.
  - rewrite suffix_drop_length. split.
    + intros [Hge Hs].
      assert (length seg ≤ length l)%nat as Hle by (unfold len in Hge; lia).
      rewrite slice_from_neg_len in Hs by done. done.
    + intros [[Hle Hd] _]. split; [unfold len; lia|].
      by rewrite slice_from_neg_len.
Qed.

Lemma suffix_test_false (l seg : list Z) :
  suffix_test l seg = false ↔ ¬ detects l seg.
Proof.
  rewrite <- suffix_test_spec. destruct (suffix_test l seg); naive_solver.
Qed.

(** Where the test succeeds, [l[:-len(seg)]] is [l] without that ending. *)
Lemma detects_slice_to (l seg : list Z) :
  detects l seg → l = slice_to l (- len seg) ++ seg.
Proof.
  intros [Hs Hnil]. destruct (decide (seg = [])) as [->|Hne].
  - rewrite slice_to_neg_nil. by rewrite Hnil.
  - apply suffix_drop_length in Hs as [Hle Hd].
    rewrite slice_to_neg_len by done.
    rewrite <- (take_drop (length l - length seg) l) at 1. by rewrite Hd.
Qed.

Lemma suffix_same_length (l s1 s2 : list Z) :
  s1 `suffix_of` l → s2 `suffix_of` l → length s1 = length s2 → s1 = s2.
Proof.
  intros [H1 D1]%suffix_drop_length [H2 D2]%suffix_drop_length Hlen.
  rewrite <- D1, <- D2. by rewrite Hlen.
Qed.

(** ** [sorted] permutes its argument into key order *)

Section sorted_facts.
Context {A : Type} (key : A → Z).
Implicit Types l : list A.

Lemma insert_by_key_perm x l : insert_by_key key x l ≡ₚ x :: l.
Proof.
  induction l as [|y l IH]; simpl; [done|].
  destruct (key x <=? key y); [done|].
  rewrite IH. apply Permutation_swap.
Qed.

Lemma sorted_perm l : sorted key l ≡ₚ l.
Proof.
  induction l as [|x l IH]; simpl; [done|].
  by rewrite insert_by_key_perm, IH.
Qed.

Lemma elem_of_sorted x l : x ∈ sorted key l ↔ x ∈ l.
Proof. by rewrite sorted_perm. Qed.

Lemma insert_by_key_ordered x l :
  StronglySorted (λ a b, key a ≤ key b) l →
  StronglySorted (λ a b, key a ≤ key b) (insert_by_key key x l).
Proof.
  induction 1 as [|y l Hl IH Hy]; simpl.
  - repeat constructor.
  - destruct (Z.leb_spec (key x) (key y)) as [Hxy|Hxy].
    + constructor; [by constructor|].
      constructor; [done|].
      eapply Forall_impl; [exact Hy|]. simpl. intros. lia.
    + constructor; [done|].
      rewrite insert_by_key_perm. constructor; [lia | done].
Qed.

Lemma sorted_ordered l : StronglySorted (λ a b, key a ≤ key b) (sorted key l).
Proof.
  induction l as [|x l IH]; simpl; [constructor|].
  by apply insert_by_key_ordered.
Qed.
End sorted_facts.

(** ** The trimming loop *)

Lemma strip_first_hit_unfold (S : list Z) seg rest :
  strip_first_hit S (seg :: rest) =
  if suffix_test S seg then slice_to S (- len seg) else strip_first_hit S rest.
Proof.
  unfold suffix_test. simpl.
  destruct (len S >=? len seg); simpl; [|done].
  by destruct (bool_decide _).
Qed.

(** Nothing detected: the list comes back as it is. *)
Lemma strip_first_hit_none (S : list Z) segs :
  (∀ seg, seg ∈ segs → ¬ detects S seg) → strip_first_hit S segs = S.
Proof.
  induction segs as [|seg rest IH]; intros Hno; [done|].
  rewrite strip_first_hit_unfold.
  destruct (suffix_test S seg) eqn:Ht.
  - apply suffix_test_spec in Ht. exfalso. eapply Hno; [|done]. left.
  - apply IH. intros s Hs. apply Hno. by right.
Qed.

(** The loop returns either its input or the input cut at a detected
    stop sequence. *)
Lemma strip_first_hit_cases (S : list Z) segs :
  strip_first_hit S segs = S ∨
  ∃ seg, seg ∈ segs ∧ detects S seg ∧
         strip_first_hit S segs = slice_to S (- len seg).
Proof.
  induction segs as [|seg rest IH]; [by left|].
  rewrite strip_first_hit_unfold.
  destruct (suffix_test S seg) eqn:Ht.
  - right. exists seg. apply suffix_test_spec in Ht.
    split; [left | done].
  - destruct IH as [IH|(s & Hs & Hd & IH)]; [by left|].
    right. exists s. split; [by right | done].
Qed.

(** On candidates in descending length order, the cut is at a detected
    stop sequence that is at least as long as any other detected one. *)
Lemma strip_first_hit_longest (S : list Z) segs ω :
  StronglySorted (λ a b, - len a ≤ - len b) segs →
  ω ∈ segs → detects S ω →
  ∃ seg, seg ∈ segs ∧ detects S seg ∧ (length ω ≤ length seg)%nat ∧
         strip_first_hit S segs = slice_to S (- len seg).
Proof.
  induction 1 as [|seg rest Hrest IH Hseg]; intros Hin Hd.
  - by apply elem_of_nil in Hin.
  - rewrite strip_first_hit_unfold.
    destruct (suffix_test S seg) eqn:Ht.
    + exists seg. apply suffix_test_spec in Ht.
      split; [left|]. split; [done|]. split; [|done].
      apply elem_of_cons in Hin as [->|Hin]; [done|].
      rewrite Forall_forall in Hseg. specialize (Hseg _ Hin).
      unfold len in Hseg. lia.
    + apply suffix_test_false in Ht.
      apply elem_of_cons in Hin as [->|Hin]; [done|].
      destruct (IH Hin Hd) as (s & Hs & Hds & Hlen & Heq).
      exists s. split; [by right | done].
Qed.

(** The trimmer leaves a list alone exactly when no non-empty stop
    sequence ends it. *)
Lemma remove_stop_tokens_from_end_fixed (X : list Z) (Ω : list (list Z)) :
  remove_stop_tokens_from_end X Ω = X ↔
  ∀ ω, ω ∈ Ω → ω ≠ [] → ¬ ω `suffix_of` X.
Proof.
  unfold remove_stop_tokens_from_end. split.
  - intros Hfix ω Hin Hne Hsuf.
    destruct (strip_first_hit_longest X (sorted (λ x, - len x) Ω) ω)
      as (seg & _ & Hd & Hlen & Heq).
    + apply sorted_ordered.
    + by apply elem_of_sorted.
    + split; [done|]. by intros ->.
    + apply detects_slice_to in Hd. rewrite <- Heq, Hfix in Hd.
      apply (f_equal length) in Hd. rewrite length_app in Hd.
      destruct ω; [done|]. simpl in Hlen. lia.
  - intros Hno.
    destruct (strip_first_hit_cases X (sorted (λ x, - len x) Ω))
      as [Heq|(seg & Hin & [Hsuf Hnil] & Heq)]; [done|].
    apply elem_of_sorted in Hin.
    destruct (decide (seg = [])) as [->|Hne].
    + rewrite Heq, slice_to_neg_nil. symmetry. by apply Hnil.
    + destruct (Hno seg Hin Hne Hsuf).
Qed.

(** A non-empty stop sequence at the end of [S] makes the trimmer cut [S]
    at a stop sequence of [Ω] that is at least as long. *)
Lemma remove_stop_tokens_from_end_cut (S : list Z) (Ω : list (list Z)) ω :
  ω ∈ Ω → ω ≠ [] → ω `suffix_of` S →
  ∃ seg, seg ∈ Ω ∧ seg `suffix_of` S ∧ (length ω ≤ length seg)%nat ∧
         S = remove_stop_tokens_from_end S Ω ++ seg.
Proof.
  intros Hin Hne Hsuf. unfold remove_stop_tokens_from_end.
  destruct (strip_first_hit_longest S (sorted (λ x, - len x) Ω) ω)
    as (seg & Hseg & Hd & Hlen & Heq).
  - apply sorted_ordered.
  - by apply elem_of_sorted.
  - split; [done|]. by intros ->.
  - exists seg. apply elem_of_sorted in Hseg.
    split; [done|]. split; [apply Hd|]. split; [done|].
    rewrite Heq. by apply detects_slice_to.
Qed.

(** C1: if some stop sequence of Ω is a suffix of S, the trimmer returns S
    with the longest such stop sequence removed from the end, once; if none
    is, it returns S unchanged. *)
Theorem remove_stop_tokens_from_end_longest (S : list Z) (Ω : list (list Z)) :
  ((∃ ω, ω ∈ Ω ∧ ω `suffix_of` S) →
   ∃ ω, ω ∈ Ω ∧ ω `suffix_of` S ∧
        (∀ ω', ω' ∈ Ω → ω' `suffix_of` S → (length ω' ≤ length ω)%nat) ∧
        S = remove_stop_tokens_from_end S Ω ++ ω) ∧
  ((∀ ω, ω ∈ Ω → ¬ ω `suffix_of` S) → remove_stop_tokens_from_end S Ω = S).
Proof.
  split.
  - intros (ω0 & Hin0 & Hsuf0).
    destruct (decide (ω0 = [])) as [->|Hne0].
    + destruct (decide (remove_stop_tokens_from_end S Ω = S)) as [Hfix|Hmov].
      * exists []. split; [done|]. split; [done|]. split.
        -- intros ω' Hin' Hsuf'. destruct ω' as [|a ω']; [done|].
           exfalso.
           eapply (proj1 (remove_stop_tokens_from_end_fixed S Ω) Hfix);
             [exact Hin' | done | exact Hsuf'].
        -- by rewrite Hfix, app_nil_r.
      * assert (∃ ω, ω ∈ Ω ∧ ω ≠ [] ∧ ω `suffix_of` S) as (ω1 & Hin1 & Hne1 & Hsuf1).
        { destruct (decide (Exists (λ ω, ω ≠ [] ∧ ω `suffix_of` S) Ω)) as [Hex|Hno].
          - apply Exists_exists in Hex as (ω1 & ? & ? & ?). by exists ω1.
          - exfalso. apply Hmov, remove_stop_tokens_from_end_fixed.
            intros ω Hin Hne Hsuf. apply Hno, Exists_exists. by exists ω. }
        destruct (remove_stop_tokens_from_end_cut S Ω ω1)
          as (seg & Hseg & Hsseg & Hlen & Heq); [done..|].
        exists seg. split; [done|]. split; [done|]. split; [|done].
        intros ω' Hin' Hsuf'. destruct (decide (ω' = [])) as [->|Hne'].
        { simpl. lia. }
        destruct (remove_stop_tokens_from_end_cut S Ω ω')
          as (seg' & _ & _ & Hlen' & Heq'); [done..|].
        rewrite Heq in Heq' at 1. apply app_inv_head in Heq'. by subst seg'.
    + destruct (remove_stop_tokens_from_end_cut S Ω ω0)
        as (seg & Hseg & Hsseg & Hlen & Heq); [done..|].
      exists seg. split; [done|]. split; [done|]. split; [|done].
      intros ω' Hin' Hsuf'. destruct (decide (ω' = [])) as [->|Hne'].
      { simpl. lia. }
      destruct (remove_stop_tokens_from_end_cut S Ω ω')
        as (seg' & _ & _ & Hlen' & Heq'); [done..|].
      rewrite Heq in Heq' at 1. apply app_inv_head in Heq'. by subst seg'.
  - intros Hno. apply remove_stop_tokens_from_end_fixed.
    intros ω Hin _. by apply Hno.
Qed.

Example trim_twice_differs :
  remove_stop_tokens_from_end [1; 2; 2] [[2]] = [1; 2] ∧
  remove_stop_tokens_from_end [1; 2] [[2]] = [1].
Proof. split; reflexivity. Qed.

(** C2 fails as stated: [[1; 2; 2]] ends with the stop sequence [[2]], and
    so does what the trimmer returns for it. *)
Lemma remove_stop_tokens_from_end_not_idempotent :
  ¬ (∀ (S : list Z) (Ω : list (list Z)),
       (∃ ω, ω ∈ Ω ∧ ω `suffix_of` S) →
       remove_stop_tokens_from_end (remove_stop_tokens_from_end S Ω) Ω =
       remove_stop_tokens_from_end S Ω).
Proof.
  intros H. specialize (H [1; 2; 2] [[2]]).
  assert (∃ ω : list Z, ω ∈ [[2]] ∧ ω `suffix_of` [1; 2; 2]) as Hex.
  { exists [2]. split; [left | by exists [1; 2]]. }
  specialize (H Hex). vm_compute in H. discriminate H.
Qed.

(** One call removes one stop sequence, the longest that ends its input. *)
Lemma remove_stop_tokens_from_end_one (S : list Z) (Ω : list (list Z)) :
  (∃ ω, ω ∈ Ω ∧ ω `suffix_of` S) →
  ∃ ω, ω ∈ Ω ∧ ω `suffix_of` S ∧
       (∀ ω', ω' ∈ Ω → ω' `suffix_of` S → (length ω' ≤ length ω)%nat) ∧
       S = remove_stop_tokens_from_end S Ω ++ ω.
Proof.
  intros (ω0 & Hin0 & Hsuf0).
  destruct (decide (Exists (λ ω, ω ≠ [] ∧ ω `suffix_of` S) Ω)) as [Hex|Hno].
  - apply Exists_exists in Hex as (ω1 & Hin1 & Hne1 & Hsuf1).
    destruct (remove_stop_tokens_from_end_cut S Ω ω1)
      as (seg & Hseg & Hsseg & Hlen & Heq); [done..|].
    exists seg. split; [done|]. split; [done|]. split; [|done].
    intros ω' Hin' Hsuf'. destruct (decide (ω' = [])) as [->|Hne'].
    { simpl. lia. }
    destruct (remove_stop_tokens_from_end_cut S Ω ω')
      as (seg' & _ & _ & Hlen' & Heq'); [done..|].
    rewrite Heq in Heq' at 1. apply app_inv_head in Heq'. by subst seg'.
  - assert (∀ ω, ω ∈ Ω → ω ≠ [] → ¬ ω `suffix_of` S) as Hnone.
    { intros ω Hin Hne Hsuf. apply Hno, Exists_exists. by exists ω. }
    assert (ω0 = []) as ->.
    { destruct ω0 as [|a ω0]; [done|]. by destruct (Hnone (a :: ω0)). }
    exists []. split; [done|]. split; [done|]. split.
    + intros ω' Hin' Hsuf'. destruct ω' as [|a ω']; [done|].
      by destruct (Hnone (a :: ω')).
    + rewrite (proj2 (remove_stop_tokens_from_end_fixed S Ω) Hnone).
      by rewrite app_nil_r.
Qed.

(** C2, amended: when S ends with a stop sequence of Ω, a call of the
    trimmer removes exactly one stop sequence, the longest one of Ω that
    ends its input.  So the first call returns S without the longest stop
    sequence ending S; trimming the trimmed result again changes nothing
    exactly when the trimmed result does not itself end with a non-empty
    stop sequence of Ω, and otherwise removes the longest stop sequence of
    Ω that ends the trimmed result. *)
Theorem remove_stop_tokens_from_end_rerun (S : list Z) (Ω : list (list Z)) :
  (∃ ω, ω ∈ Ω ∧ ω `suffix_of` S) →
  (∃ ω, ω ∈ Ω ∧ ω `suffix_of` S ∧
        (∀ ω', ω' ∈ Ω → ω' `suffix_of` S → (length ω' ≤ length ω)%nat) ∧
        S = remove_stop_tokens_from_end S Ω ++ ω) ∧
  (remove_stop_tokens_from_end (remove_stop_tokens_from_end S Ω) Ω =
     remove_stop_tokens_from_end S Ω ↔
   ∀ ω, ω ∈ Ω → ω ≠ [] → ¬ ω `suffix_of` remove_stop_tokens_from_end S Ω) ∧
  ((∃ ω, ω ∈ Ω ∧ ω ≠ [] ∧ ω `suffix_of` remove_stop_tokens_from_end S Ω) →
   ∃ ω, ω ∈ Ω ∧ ω ≠ [] ∧ ω `suffix_of` remove_stop_tokens_from_end S Ω ∧
        (∀ ω', ω' ∈ Ω → ω' `suffix_of` remove_stop_tokens_from_end S Ω →
               (length ω' ≤ length ω)%nat) ∧
        remove_stop_tokens_from_end S Ω =
          remove_stop_tokens_from_end (remove_stop_tokens_from_end S Ω) Ω ++ ω).
Proof.
  intros Hex. split; [by apply remove_stop_tokens_from_end_one|].
  split; [apply remove_stop_tokens_from_end_fixed|].
  intros (ω1 & Hin1 & Hne1 & Hsuf1).
  destruct (remove_stop_tokens_from_end_one
              (remove_stop_tokens_from_end S Ω) Ω)
    as (ω & Hin & Hsuf & Hlong & Heq); [by exists ω1|].
  exists ω. split; [done|]. split; [|done].
  intros ->. specialize (Hlong ω1 Hin1 Hsuf1).
  destruct ω1; [done | simpl in Hlong; lia].
Qed.

Lemma remove_stop_tokens_from_end_rerun_witness :
  (∃ ω : list Z, ω ∈ [[2]; [3; 2]] ∧ ω `suffix_of` [1; 2; 3; 2]) ∧
  (∃ ω : list Z, ω ∈ [[2]; [3; 2]] ∧ ω ≠ [] ∧
     ω `suffix_of` remove_stop_tokens_from_end [1; 2; 3; 2] [[2]; [3; 2]] ∧
     (∀ ω', ω' ∈ [[2]; [3; 2]] →
            ω' `suffix_of` remove_stop_tokens_from_end [1; 2; 3; 2] [[2]; [3; 2]] →
            (length ω' ≤ length ω)%nat) ∧
     remove_stop_tokens_from_end [1; 2; 3; 2] [[2]; [3; 2]] =
       remove_stop_tokens_from_end
         (remove_stop_tokens_from_end [1; 2; 3; 2] [[2]; [3; 2]]) [[2]; [3; 2]]
       ++ ω).
Proof.
  assert (∃ ω : list Z, ω ∈ [[2]; [3; 2]] ∧ ω `suffix_of` [1; 2; 3; 2]) as Hex.
  { exists [2]. split; [left | by exists [1; 2; 3]]. }
  split; [exact Hex|].
  destruct (remove_stop_tokens_from_end_rerun [1; 2; 3; 2] [[2]; [3; 2]] Hex)
    as (_ & _ & Hagain).
  apply Hagain. exists [2].
  split; [left|]. split; [done|]. by exists [1].
Defined.

Example trim_one_per_call :
  remove_stop_tokens_from_end [1; 2; 3; 2] [[2]; [3; 2]] = [1; 2] ∧
  remove_stop_tokens_from_end [1; 2] [[2]; [3; 2]] = [1] ∧
  remove_stop_tokens_from_end [1] [[2]; [3; 2]] = [1].
Proof. repeat split; reflexivity. Qed.

(** ** Tool-choice resolution *)

Lemma tools_named_filter fname (tools : list Tool) :
  tools_named fname tools = filter (named fname) tools.
Proof.
  induction tools as [|t tools IH]; simpl; [done|].
  unfold filter at 1. simpl. unfold named at 1.
  destruct (decide (name (function t) = fname)) as [Heq|Hne].
  - rewrite bool_decide_eq_true_2 by done. by rewrite IH.
  - rewrite bool_decide_eq_false_2 by done. by rewrite IH.
Qed.

Lemma tools_named_nil fname (tools : list Tool) :
  tools_named fname tools = [] ↔ ∀ t, t ∈ tools → name (function t) ≠ fname.
Proof.
  induction tools as [|u tools IH]; simpl.
  - split; [|done]. intros _ t Hin. by apply elem_of_nil in Hin.
  - destruct (decide (name (function u) = fname)) as [Heq|Hne].
    + rewrite bool_decide_eq_true_2 by done. split; [done|].
      intros Hno. destruct (Hno u); [left | done].
    + rewrite bool_decide_eq_false_2 by done. rewrite IH. split.
      * intros Hno t [->|Hin]%elem_of_cons; [done | by apply Hno].
      * intros Hno t Hin. apply Hno. by right.
Qed.

Lemma tools_named_only fname (pre post : list Tool) t :
  name (function t) = fname →
  (∀ u, u ∈ pre ++ post → name (function u) ≠ fname) →
  tools_named fname (pre ++ t :: post) = [t].
Proof.
  intros Hname Hothers. rewrite tools_named_filter, filter_app, filter_cons.
  rewrite decide_True by done.
  rewrite <- !tools_named_filter.
  rewrite (proj2 (tools_named_nil fname pre)),
          (proj2 (tools_named_nil fname post)); [done| |].
  - intros u Hu. apply Hothers, elem_of_app. by right.
  - intros u Hu. apply Hothers, elem_of_app. by left.
Qed.

(** What the resolver does with a bare reference to [fname]. *)
Lemma enforce_tool_choice_bare_eq T (tools : list Tool) :
  is_bare T = true →
  enforce_tool_choice (ChoiceTool T) (Some tools) =
  match tools_named (name (function T)) tools with
  | [] => Raise (InvalidToolChoice (name (function T)))
  | t :: ts => Ok (Some (t :: ts))
  end.
Proof.
  intros Hbare. unfold enforce_tool_choice. rewrite Hbare.
  destruct (tools_named _ tools) as [|t ts]; [done|].
  unfold len. simpl length.
  by destruct (Z.gtb_spec (Z.of_nat (S (length ts))) 0); [|lia].
Qed.

(** C3 fails as stated: with two declared tools of the requested name the
    resolver returns both of them, not a singleton. *)
Lemma enforce_tool_choice_bare_not_singleton :
  ¬ (∀ (tools : list Tool) (T : Tool),
       is_bare T = true →
       (∃ t, t ∈ tools ∧ name (function t) = name (function T)) →
       ∃ t, t ∈ tools ∧ name (function t) = name (function T) ∧
            enforce_tool_choice (ChoiceTool T) (Some tools) = Ok (Some [t])).
Proof.
  intros H.
  destruct (H [get_weather; get_weather_v2] bare_get_weather)
    as (t & _ & _ & Heq); [done| |].
  - exists get_weather. split; [left | done].
  - vm_compute in Heq. discriminate Heq.
Qed.

(** C3, amended: for a bare-name tool choice T, the resolver fails with
    [InvalidToolChoice] when no declared tool has T's function name;
    otherwise it returns all declared tools of that name, in declared order,
    which is the singleton of that tool when exactly one declared tool has
    the name. *)
Theorem enforce_tool_choice_bare (tools : list Tool) (T : Tool) :
  is_bare T = true →
  ((∃ t, t ∈ tools ∧ name (function t) = name (function T)) →
   filter (named (name (function T))) tools ≠ [] ∧
   enforce_tool_choice (ChoiceTool T) (Some tools) =
     Ok (Some (filter (named (name (function T))) tools))) ∧
  (∀ pre t post,
     tools = pre ++ t :: post →
     name (function t) = name (function T) →
     (∀ u, u ∈ pre ++ post → name (function u) ≠ name (function T)) →
     enforce_tool_choice (ChoiceTool T) (Some tools) = Ok (Some [t])) ∧
  ((∀ t, t ∈ tools → name (function t) ≠ name (function T)) →
   enforce_tool_choice (ChoiceTool T) (Some tools) =
     Raise (InvalidToolChoice (name (function T)))).
Proof.
  intros Hbare. rewrite (enforce_tool_choice_bare_eq _ _ Hbare).
  split; [|split].
  - intros (t & Hin & Hname). rewrite <- tools_named_filter.
    destruct (tools_named _ tools) as [|u us] eqn:Hnamed; [|done].
    exfalso. by eapply (proj1 (tools_named_nil _ _) Hnamed).
  - intros pre t post -> Hname Hothers.
    by rewrite tools_named_only.
  - intros Hno. by rewrite (proj2 (tools_named_nil _ _) Hno).
Qed.

Lemma enforce_tool_choice_bare_witness :
  is_bare bare_get_weather = true ∧
  enforce_tool_choice (ChoiceTool bare_get_weather) (Some [get_weather]) =
    Ok (Some [get_weather]).
Proof.
  split; [reflexivity|].
  destruct (enforce_tool_choice_bare [get_weather] bare_get_weather eq_refl)
    as (_ & Hone & _).
  apply (Hone [] get_weather []); [reflexivity | reflexivity |].
  intros u Hu. simpl in Hu. by apply elem_of_nil in Hu.
Defined.

(** C4: with tool choice ["none"] the resolver returns the empty tool list,
    whatever was declared. *)
Theorem enforce_tool_choice_none (tools : option (list Tool)) :
  enforce_tool_choice (ChoiceStr "none") tools = Ok (Some []).
Proof. reflexivity. Qed.

(** C10: every string-valued tool choice other than ["none"], recognised or
    not, makes the resolver return the declared tool list as it is, without
    an error. *)
Theorem enforce_tool_choice_other_string (s : string) (tools : option (list Tool)) :
  s ≠ "none" → enforce_tool_choice (ChoiceStr s) tools = Ok tools.
Proof.
  intros Hs. unfold enforce_tool_choice.
  by rewrite bool_decide_eq_false_2.
Qed.

Lemma enforce_tool_choice_other_string_witness :
  "required" ≠ "none" ∧
  enforce_tool_choice (ChoiceStr "required") (Some [get_weather; get_weather_v2])
    = Ok (Some [get_weather; get_weather_v2]).
Proof.
  assert ("required" ≠ "none") as Hne by discriminate.
  split; [exact Hne|].
  exact (enforce_tool_choice_other_string "required" _ Hne).
Defined.

(** ** The stop predicate *)

(** Cutting the prompt off the running sequence, as [generate_message] does
    with the output of [generate], gives back the generated tokens. *)
Lemma generated_token_ids_decode_step (prompt generated : list Z) :
  generated_token_ids prompt (decode_step_input_ids prompt generated)
  = Ok generated.
Proof.
  unfold generated_token_ids, decode_step_input_ids. simpl. f_equal.
  unfold slice_from, clamp, len.
  destruct (Z.ltb_spec (Z.of_nat (length prompt)) 0); [lia|].
  rewrite length_app.
  replace (Z.to_nat _) with (length prompt) by lia.
  by rewrite drop_app_length.
Qed.

Lemma any_stop_hit_spec (inputs : list Z) (stops : list (list Z)) :
  any_stop_hit inputs stops = true ↔
  ∃ stop, stop ∈ stops ∧ detects inputs stop.
Proof.
  induction stops as [|stop rest IH]; simpl.
  - split; [done|]. intros (stop & Hin & _). by apply elem_of_nil in Hin.
  - fold (suffix_test inputs stop).
    destruct (suffix_test inputs stop) eqn:Ht.
    + split; [|done]. intros _. exists stop.
      split; [left | by apply suffix_test_spec].
    + apply suffix_test_false in Ht. rewrite IH. split.
      * intros (s & Hin & Hd). exists s. split; [by right | done].
      * intros (s & [->|Hin]%elem_of_cons & Hd); [done|]. by exists s.
Qed.

(** C5 fails as stated: the predicate is handed the prompt together with
    the generated tokens and cannot tell them apart, so the stop sequence
    [[5; 7]] halts decoding after prompt [[5]] and generated token [7]. *)
Lemma StopWordsCriteria_call_overlaps_prompt :
  ¬ (∀ (self : StopWordsCriteria) (prompt generated : list Z),
       StopWordsCriteria_call self (decode_step_input_ids prompt generated) ()
         = Ok true ↔
       ∃ stop, stop ∈ stops self ∧ stop `suffix_of` generated).
Proof.
  intros H.
  destruct (proj1 (H (mkStopWordsCriteria [[5; 7]]) [5] [7]) eq_refl)
    as (stop & Hin & Hsuf).
  apply list_elem_of_singleton in Hin as ->.
  apply suffix_length in Hsuf. simpl in Hsuf. lia.
Qed.

(** The predicate also ignores an empty stop sequence unless nothing at all
    has been produced. *)
Example StopWordsCriteria_call_empty_stop :
  StopWordsCriteria_call (mkStopWordsCriteria [[]]) [[1]] () = Ok false ∧
  StopWordsCriteria_call (mkStopWordsCriteria [[]]) [[]] () = Ok true.
Proof. split; reflexivity. Qed.

(** C5, amended: at a decode step the stop predicate signals halt exactly
    when the whole sequence it is given, prompt followed by generated
    tokens, ends with a registered stop sequence under exact token-id
    equality (an empty stop sequence counts only for an empty sequence).
    It therefore halts whenever the generated tokens end with a non-empty
    registered stop sequence, and also on a match that reaches back into
    the prompt. *)
Theorem StopWordsCriteria_call_decode_step
    {Scores : Type} (self : StopWordsCriteria)
    (prompt generated : list Z) (scores : Scores) :
  ∃ halt : bool,
    StopWordsCriteria_call self (decode_step_input_ids prompt generated) scores
      = Ok halt ∧
    (halt = true ↔
     ∃ stop, stop ∈ stops self ∧ stop `suffix_of` (prompt ++ generated) ∧
             (stop = [] → prompt ++ generated = [])) ∧
    ((∃ stop, stop ∈ stops self ∧ stop ≠ [] ∧ stop `suffix_of` generated) →
     halt = true).
Proof.
  exists (any_stop_hit (prompt ++ generated) (stops self)).
  split; [done|]. rewrite any_stop_hit_spec. split.
  - unfold detects. naive_solver.
  - intros (stop & Hin & Hne & Hsuf). exists stop. split; [done|].
    split; [by apply suffix_app_r | done].
Qed.

(** ** Stop sequences built by [generate_message] *)

Section stop_words_facts.
Variable encode : string → list Z.

Lemma stop_words_step_corrected acc stop :
  stop_words_step encode acc stop = acc ++ [corrected (encode stop)].
Proof.
  unfold stop_words_step, corrected. f_equal. f_equal.
  destruct (encode stop) as [|a [|b rest]]; [done..|].
  assert ((len (a :: b :: rest) >? 1) = true) as ->.
  { unfold len. simpl length. apply Z.gtb_lt. lia. }
  simpl andb. simpl lookup.
  destruct (decide (a = sentinel_quirk_id)) as [->|Hne].
  - rewrite !bool_decide_eq_true_2 by done.
    unfold slice_from, clamp, len. simpl length.
    replace (Z.to_nat _) with 1%nat; [done|].
    destruct (Z.ltb_spec 1 0); lia.
  - rewrite !bool_decide_eq_false_2; [done..|]. congruence.
Qed.

Lemma stop_words_fold acc markers :
  fold_left (stop_words_step encode) markers acc =
  acc ++ ((corrected ∘ encode) <$> markers).
Proof.
  revert acc. induction markers as [|m markers IH]; intros acc; simpl.
  - by rewrite app_nil_r.
  - rewrite IH, stop_words_step_corrected. by rewrite <- app_assoc.
Qed.
End stop_words_facts.

(** C6: the stop sequences are built marker by marker, in order; a marker
    whose tokenization is longer than one id and starts with 29871 is used
    without that leading id, every other marker is used as tokenized. *)
Theorem stop_words_ids_quirk
    (encode : string → list Z) (kwargs_stops template_stops : list string) :
  Forall2
    (λ marker seq,
       ((1 < length (encode marker))%nat ∧ head (encode marker) = Some 29871 →
        encode marker = 29871 :: seq) ∧
       (¬ ((1 < length (encode marker))%nat ∧
           head (encode marker) = Some 29871) →
        seq = encode marker))
    (kwargs_stops ++ template_stops)
    (stop_words_ids encode kwargs_stops template_stops).
Proof.
  unfold stop_words_ids. rewrite stop_words_fold. simpl.
  apply Forall2_fmap_r, Forall_Forall2_diag, Forall_forall.
  intros marker _. simpl. unfold corrected, sentinel_quirk_id.
  destruct (encode marker) as [|a [|b rest]]; simpl.
  - split; [intros [? _]; lia | done].
  - split; [intros [? _]; lia | done].
  - destruct (decide (a = 29871)) as [->|Hne].
    + rewrite bool_decide_eq_true_2 by done. split; [done|].
      intros Hn. destruct Hn. split; [lia | done].
    + rewrite bool_decide_eq_false_2 by done. split; [|done].
      intros [_ [=]]. done.
Qed.

Example stop_words_ids_example :
  stop_words_ids
    (λ s, if bool_decide (s = "<|stop|>") then [29871; 32002]
          else if bool_decide (s = "x") then [29871] else [32001])
    ["x"] ["<|stop|>"; "<|from|>"]
  = [[29871]; [32002]; [32001]].
Proof. reflexivity. Qed.

(** ** The forced suffix of the assembled prompt *)

Lemma string_app_assoc (a b c : string) : (a +:+ b) +:+ c = a +:+ (b +:+ c).
Proof.
  induction a as [|ch a IH]; [done|].
  change (String ch ((a +:+ b) +:+ c) = String ch (a +:+ (b +:+ c))).
  by rewrite IH.
Qed.

Example final_prompt_none_demo :
  final_prompt id name (name ∘ function) "<|assistant|>" demo_template
    ["<|user|>Hi"] None None (Some (ChoiceStr "none"))
  = Ok "<|user|>Hi<|assistant|>all<|content|>".
Proof. reflexivity. Qed.

(** C7 fails as stated: for policy ["none"] the assembler does append
    something, the template's first predefined function name and the
    function-parameter stop marker. *)
Lemma final_prompt_none_appends :
  ¬ (∀ (prompt_template : PromptTemplate string) (messages : list string),
       final_prompt id name (name ∘ function) "<|assistant|>" prompt_template
         messages None None (Some (ChoiceStr "none"))
       = Ok (rendered_prompt id name (name ∘ function) "<|assistant|>"
               prompt_template messages None None)).
Proof.
  intros H. specialize (H demo_template ["<|user|>Hi"]).
  vm_compute in H. discriminate H.
Qed.

Section prompt_facts.
Context {Dict ChatMessage : Type}.
Variable message_dict : ChatMessage → Dict.
Variable function_dict : Function → Dict.
Variable tool_dict : Tool → Dict.
Variable assistant_turn : Dict.
Variable prompt_template : PromptTemplate Dict.
Variable tokenizer : string → list Z.

Local Abbreviation rendered := (rendered_prompt
  message_dict function_dict tool_dict assistant_turn prompt_template).
Local Abbreviation final := (final_prompt
  message_dict function_dict tool_dict assistant_turn prompt_template).
Local Abbreviation marker :=
  (get_stop_token_for_function_parameter prompt_template "function").

(** C7, amended: for an explicit tool choice T the assembled prompt text
    is the rendered prompt followed by T's function name and the
    template's function-parameter stop marker; for policy ["none"] it is
    the rendered prompt followed by the template's first predefined
    function name and that same marker; for policy ["auto"] or an absent
    policy it is the rendered prompt with nothing appended. *)
Theorem final_prompt_suffix
    (messages : list ChatMessage)
    (functions : option (list Function)) (tools : option (list Tool)) :
  (∀ T, final messages functions tools (Some (ChoiceTool T)) =
        Ok (rendered messages functions tools +:+
            (name (function T) +:+ marker))) ∧
  (∀ first others,
     get_predefined_function_names prompt_template = first :: others →
     final messages functions tools (Some (ChoiceStr "none")) =
     Ok (rendered messages functions tools +:+ (first +:+ marker))) ∧
  final messages functions tools (Some (ChoiceStr "auto")) =
    Ok (rendered messages functions tools) ∧
  final messages functions tools None =
    Ok (rendered messages functions tools).
Proof.
  unfold final_prompt.
  split; [|split; [|split]]; try done.
  - intros T. by rewrite string_app_assoc.
  - intros first others ->. simpl. by rewrite string_app_assoc.
Qed.

(** The model input is the tokenization of that text. *)
Lemma prepare_messages_for_inference_text messages functions tools tool_choice :
  prepare_messages_for_inference
    message_dict function_dict tool_dict assistant_turn prompt_template
    tokenizer messages functions tools tool_choice =
  bind (final messages functions tools tool_choice) (λ text, Ok (tokenizer text)).
Proof. done. Qed.
End prompt_facts.

(** ** Substituting the code interpreter *)

Lemma parse_PYTHON_RUN_TOOL : Tool_parse_obj PYTHON_RUN_TOOL = Ok python_tool.
Proof. reflexivity. Qed.

Lemma substitute_loop_cons l i tool (rest : list Tool) (σ : store) :
  substitute_loop l i (tool :: rest) σ =
  if bool_decide (type tool = "code_interpreter")
  then bind (Tool_parse_obj PYTHON_RUN_TOOL) (λ py, Ok (setitem l i py σ))
  else substitute_loop l (S i) rest σ.
Proof. done. Qed.

Lemma substitute_loop_absent l i (rest : list Tool) (σ : store) :
  (∀ u, u ∈ rest → type u ≠ "code_interpreter") →
  substitute_loop l i rest σ = Ok σ.
Proof.
  revert i. induction rest as [|u rest IH]; intros i Hno; [done|].
  rewrite substitute_loop_cons.
  rewrite bool_decide_eq_false_2 by (apply Hno; left).
  apply IH. intros v Hv. apply Hno. by right.
Qed.

(** The loop runs over [mid ++ t :: post], the part of the list at [l] that
    follows [pre], and stops at [t], the first code-interpreter entry. *)
Lemma substitute_loop_first l (pre mid post : list Tool) t (σ : store) :
  σ !! l = Some (pre ++ mid ++ t :: post) →
  type t = "code_interpreter" →
  (∀ u, u ∈ mid → type u ≠ "code_interpreter") →
  substitute_loop l (length pre) (mid ++ t :: post) σ =
  Ok (<[l := pre ++ mid ++ python_tool :: post]> σ).
Proof.
  revert pre. induction mid as [|u mid IH]; intros pre Hl Ht Hno.
  - rewrite app_nil_l, substitute_loop_cons.
    rewrite bool_decide_eq_true_2 by done.
    rewrite parse_PYTHON_RUN_TOOL. simpl. unfold setitem. rewrite Hl.
    rewrite insert_app_r_alt by done.
    by rewrite Nat.sub_diag.
  - rewrite <- app_comm_cons, substitute_loop_cons.
    rewrite bool_decide_eq_false_2 by (apply Hno; left).
    specialize (IH (pre ++ [u])).
    rewrite length_app, Nat.add_1_r in IH. rewrite <- !app_assoc in IH.
    apply IH; [done | done |]. intros v Hv. apply Hno. by right.
Qed.

Lemma enforce_code_interpreter_first l (pre post : list Tool) t (σ : store) :
  σ !! l = Some (pre ++ t :: post) →
  type t = "code_interpreter" →
  (∀ u, u ∈ pre → type u ≠ "code_interpreter") →
  enforce_code_interpreter (Some l) σ =
  Ok (Some l, <[l := pre ++ python_tool :: post]> σ).
Proof.
  intros Hl Ht Hno. unfold enforce_code_interpreter. rewrite Hl.
  change (default [] (Some (pre ++ t :: post))) with (pre ++ t :: post).
  change 0%nat with (length (@nil Tool)).
  by rewrite (substitute_loop_first l [] pre post t σ).
Qed.

Lemma enforce_code_interpreter_absent l (ts : list Tool) (σ : store) :
  σ !! l = Some ts →
  (∀ u, u ∈ ts → type u ≠ "code_interpreter") →
  enforce_code_interpreter (Some l) σ = Ok (Some l, σ).
Proof.
  intros Hl Hno. unfold enforce_code_interpreter. rewrite Hl.
  change (default [] (Some ts)) with ts.
  by rewrite substitute_loop_absent.
Qed.

(** Every list has a first code-interpreter entry or none at all. *)
Lemma first_code_interpreter (ts : list Tool) :
  (∀ u, u ∈ ts → type u ≠ "code_interpreter") ∨
  ∃ pre t post, ts = pre ++ t :: post ∧ type t = "code_interpreter" ∧
                ∀ u, u ∈ pre → type u ≠ "code_interpreter".
Proof.
  induction ts as [|u ts IH].
  - left. intros u Hu. by apply elem_of_nil in Hu.
  - destruct (decide (type u = "code_interpreter")) as [Hu|Hu].
    + right. exists [], u, ts. split; [done|]. split; [done|].
      intros v Hv. by apply elem_of_nil in Hv.
    + destruct IH as [Hno|(pre & t & post & -> & Ht & Hpre)].
      * left. intros v [->|Hv]%elem_of_cons; [done | by apply Hno].
      * right. exists (u :: pre), t, post. split; [done|]. split; [done|].
        intros v [->|Hv]%elem_of_cons; [done | by apply Hpre].
Qed.

Example enforce_code_interpreter_first_only :
  enforce_code_interpreter (Some 1%positive)
    {[ 1%positive := [get_weather; code_interpreter; code_interpreter] ]}
  = Ok (Some 1%positive,
        {[ 1%positive := [get_weather; python_tool; code_interpreter] ]}).
Proof.
  rewrite (enforce_code_interpreter_first 1%positive
             [get_weather] [code_interpreter] code_interpreter).
  - by rewrite insert_singleton_eq.
  - by rewrite lookup_singleton_eq.
  - done.
  - intros u ->%list_elem_of_singleton. done.
Qed.

(** C8 fails as stated: the description of the built-in tool ends after the
    sentence about the data mount; nothing in it speaks of network or
    internet access (that sentence is a comment beside the literal). *)
Lemma python_tool_description_omits_network :
  ∃ py σ',
    enforce_code_interpreter (Some 1%positive)
      {[ 1%positive := [code_interpreter] ]} = Ok (Some 1%positive, σ') ∧
    σ' !! 1%positive = Some [py] ∧
    description (function py) =
      "When you send a message containing Python code to python, it will be executed in a stateful Jupyter notebook environment. python will respond with the output of the execution or time out after 60.0 seconds. The drive at '/mnt/data' can be used to save and persist user files." ∧
    mentions "network" (description (function py)) = false ∧
    mentions "Internet" (description (function py)) = false ∧
    mentions "internet" (description (function py)) = false ∧
    mentions "external" (description (function py)) = false ∧
    mentions "web" (description (function py)) = false.
Proof.
  exists python_tool, {[ 1%positive := [python_tool] ]}. split.
  - rewrite (enforce_code_interpreter_first 1%positive [] [] code_interpreter).
    + by rewrite insert_singleton_eq.
    + by rewrite lookup_singleton_eq.
    + done.
    + intros u Hu. by apply elem_of_nil in Hu.
  - split; [by rewrite lookup_singleton_eq|]. by vm_compute.
Qed.

(** C8, amended: a list with a code-interpreter entry gets only the first
    such entry replaced by the fixed built-in tool named ["python"], whose
    parameter schema has no properties and whose description states
    execution in a stateful Jupyter notebook with a 60-second timeout and a
    persistent drive at /mnt/data; a list without such an entry, and a
    [None] list, come back unchanged and without an error. *)
Theorem enforce_code_interpreter_substitutes (σ : store) :
  enforce_code_interpreter None σ = Ok (None, σ) ∧
  ∀ l (ts : list Tool),
    σ !! l = Some ts →
    ((∀ u, u ∈ ts → type u ≠ "code_interpreter") →
     enforce_code_interpreter (Some l) σ = Ok (Some l, σ)) ∧
    (∀ pre t post,
       ts = pre ++ t :: post →
       type t = "code_interpreter" →
       (∀ u, u ∈ pre → type u ≠ "code_interpreter") →
       ∃ py,
         enforce_code_interpreter (Some l) σ =
           Ok (Some l, <[l := pre ++ py :: post]> σ) ∧
         type py = "function" ∧
         name (function py) = "python" ∧
         parameters (function py) =
           Some (JObj [("type", JStr "object"); ("properties", JObj [])]) ∧
         mentions "stateful Jupyter notebook" (description (function py)) = true ∧
         mentions "time out after 60.0 seconds" (description (function py)) = true ∧
         mentions "The drive at '/mnt/data' can be used to save and persist user files"
           (description (function py)) = true).
Proof.
  split; [done|]. intros l ts Hl. split.
  - intros Hno. by eapply enforce_code_interpreter_absent.
  - intros pre t post -> Ht Hpre. exists python_tool.
    split; [by apply (enforce_code_interpreter_first l pre post t)|].
    by vm_compute.
Qed.

Lemma enforce_code_interpreter_substitutes_witness :
  ∃ py,
    enforce_code_interpreter (Some 1%positive)
      {[ 1%positive := [get_weather; code_interpreter; code_interpreter] ]} =
    Ok (Some 1%positive,
        {[ 1%positive := [get_weather; py; code_interpreter] ]}) ∧
    name (function py) = "python".
Proof.
  destruct (enforce_code_interpreter_substitutes
              {[ 1%positive := [get_weather; code_interpreter; code_interpreter] ]})
    as [_ H].
  destruct (H 1%positive [get_weather; code_interpreter; code_interpreter])
    as [_ Hfirst]; [by rewrite lookup_singleton_eq|].
  assert (∀ u, u ∈ [get_weather] → type u ≠ "code_interpreter") as Hpre.
  { intros u ->%list_elem_of_singleton. done. }
  destruct (Hfirst [get_weather] code_interpreter [code_interpreter]
              eq_refl eq_refl Hpre) as (py & Heq & _ & Hname & _).
  exists py. split; [|exact Hname].
  etrans; [exact Heq|]. by rewrite insert_singleton_eq.
Defined.

(** C9 fails as stated: a caller's list holding a code-interpreter entry is
    a different list after the call. *)
Lemma enforce_code_interpreter_mutates :
  ¬ (∀ (σ σ' : store) (l : loc) (ts : list Tool) (r : option loc),
       σ !! l = Some ts →
       enforce_code_interpreter (Some l) σ = Ok (r, σ') →
       σ' !! l = Some ts).
Proof.
  intros H.
  specialize (H {[ 1%positive := [code_interpreter] ]}
                {[ 1%positive := [python_tool] ]}
                1%positive [code_interpreter] (Some 1%positive)).
  rewrite !lookup_singleton_eq in H.
  assert (Some [python_tool] = Some [code_interpreter]) as Heq; [|done].
  apply H; [done|].
  rewrite (enforce_code_interpreter_first 1%positive [] [] code_interpreter).
  - by rewrite insert_singleton_eq.
  - by rewrite lookup_singleton_eq.
  - done.
  - intros u Hu. by apply elem_of_nil in Hu.
Qed.

(** C9, amended: the call returns the very list it was given and updates it
    in place.  The caller's list is element-for-element what it was before
    exactly when it holds no code-interpreter entry; otherwise it has the
    built-in python tool at the position of its first code-interpreter
    entry and its former elements everywhere else.  No other list of the
    store changes. *)
Theorem enforce_code_interpreter_in_place
    (σ : store) (l : loc) (ts : list Tool) :
  σ !! l = Some ts →
  ∃ (σ' : store) (ts' : list Tool),
    enforce_code_interpreter (Some l) σ = Ok (Some l, σ') ∧
    σ' !! l = Some ts' ∧
    (∀ l', l' ≠ l → σ' !! l' = σ !! l') ∧
    length ts' = length ts ∧
    ((∀ u, u ∈ ts → type u ≠ "code_interpreter") → ts' = ts) ∧
    (∀ pre t post,
       ts = pre ++ t :: post →
       type t = "code_interpreter" →
       (∀ u, u ∈ pre → type u ≠ "code_interpreter") →
       ts' = pre ++ python_tool :: post ∧ ts' ≠ ts).
Proof.
  intros Hl.
  destruct (first_code_interpreter ts) as [Hno|(pre & t & post & -> & Ht & Hpre)].
  - exists σ, ts. split; [by eapply enforce_code_interpreter_absent|].
    split; [done|]. split; [done|]. split; [done|]. split; [done|].
    intros pre t post -> Ht _. exfalso.
    apply (Hno t); [|done]. apply elem_of_app. right. left.
  - exists (<[l := pre ++ python_tool :: post]> σ), (pre ++ python_tool :: post).
    split; [by apply (enforce_code_interpreter_first l pre post t)|].
    split; [by rewrite lookup_insert_eq|].
    split; [by intros l' Hl'; rewrite lookup_insert_ne|].
    split; [by rewrite !length_app|]. split.
    + intros Hno. exfalso.
      apply (Hno t); [|done]. apply elem_of_app. right. left.
    + intros pre' t' post' Heq Ht' Hpre'.
      assert (length pre = length pre') as Hlen.
      { destruct (Nat.lt_trichotomy (length pre) (length pre'))
          as [Hlt|[Heq'|Hgt]]; [|done|]; exfalso.
        - assert (pre' !! length pre = Some t) as Hin.
          { rewrite <- (lookup_app_l pre' (t' :: post')) by done.
            rewrite <- Heq. by rewrite list_lookup_middle. }
          apply list_elem_of_lookup_2 in Hin. by apply (Hpre' t).
        - assert (pre !! length pre' = Some t') as Hin.
          { rewrite <- (lookup_app_l pre (t :: post)) by done.
            rewrite Heq. by rewrite list_lookup_middle. }
          apply list_elem_of_lookup_2 in Hin. by apply (Hpre t'). }
      apply app_inj_1 in Heq as [<- [= <- <-]]; [|done].
      split; [done|]. intros [=]%app_inv_head.
      assert (type python_tool = type t) as Hty by congruence.
      rewrite Ht in Hty. discriminate Hty.
Qed.

Lemma enforce_code_interpreter_in_place_witness :
  ∃ σ' : store,
    enforce_code_interpreter (Some 1%positive)
      {[ 1%positive := [code_interpreter; get_weather] ]} =
      Ok (Some 1%positive, σ') ∧
    σ' !! 1%positive = Some [python_tool; get_weather].
Proof.
  assert (({[ 1%positive := [code_interpreter; get_weather] ]} : store)
            !! 1%positive = Some [code_interpreter; get_weather]) as Hl
    by (by rewrite lookup_singleton_eq).
  destruct (enforce_code_interpreter_in_place _ _ _ Hl)
    as (σ' & ts' & Hcall & Hl' & _ & _ & _ & Hfirst).
  assert (∀ u : Tool, u ∈ [] → type u ≠ "code_interpreter") as Hpre.
  { intros u Hu. by apply elem_of_nil in Hu. }
  destruct (Hfirst [] code_interpreter [get_weather] eq_refl eq_refl Hpre)
    as [Hts' _].
  exists σ'. split; [exact Hcall|]. etrans; [exact Hl'|]. by rewrite Hts'.
Defined.

(** * Further properties of the code *)

(** ** The trimmer only cuts, and only at a registered stop sequence *)

Lemma remove_stop_tokens_from_end_split (S : list Z) (Ω : list (list Z)) :
  remove_stop_tokens_from_end S Ω = S ∨
  ∃ seg, seg ∈ Ω ∧ detects S seg ∧ S = remove_stop_tokens_from_end S Ω ++ seg.
Proof.
  unfold remove_stop_tokens_from_end.
  destruct (strip_first_hit_cases S (sorted (λ x, - len x) Ω))
    as [Heq|(seg & Hin & Hd & Heq)]; [by left|].
  right. exists seg. apply elem_of_sorted in Hin.
  split; [done|]. split; [done|]. rewrite Heq. by apply detects_slice_to.
Qed.

(** X1: whatever the stop sequences are, the trimmer returns a prefix of its
    input, and what it cuts off is nothing or one of the stop sequences: it
    never reorders, changes or adds a token. *)
Theorem remove_stop_tokens_from_end_prefix (S : list Z) (Ω : list (list Z)) :
  ∃ seg, S = remove_stop_tokens_from_end S Ω ++ seg ∧ (seg = [] ∨ seg ∈ Ω).
Proof.
  destruct (remove_stop_tokens_from_end_split S Ω)
    as [Heq|(seg & Hin & _ & Heq)].
  - exists []. split; [|by left]. by rewrite Heq, app_nil_r.
  - exists seg. split; [done | by right].
Qed.

Lemma remove_stop_tokens_from_end_length (S : list Z) (Ω : list (list Z)) :
  (length (remove_stop_tokens_from_end S Ω) ≤ length S)%nat.
Proof.
  destruct (remove_stop_tokens_from_end_split S Ω)
    as [->|(seg & _ & _ & Heq)]; [done|].
  rewrite Heq at 2. rewrite length_app. lia.
Qed.

Lemma remove_stop_tokens_from_end_take (S : list Z) (Ω : list (list Z)) :
  remove_stop_tokens_from_end S Ω =
  take (length (remove_stop_tokens_from_end S Ω)) S.
Proof.
  destruct (remove_stop_tokens_from_end_split S Ω)
    as [Heq|(seg & _ & _ & Heq)].
  - rewrite Heq. by rewrite firstn_all.
  - rewrite Heq at 3. by rewrite take_app_length.
Qed.

(** More stop sequences can only make the trimmer cut more. *)
Lemma remove_stop_tokens_from_end_mono (S : list Z) (Ω Ω' : list (list Z)) :
  (∀ ω, ω ∈ Ω → ω ∈ Ω') →
  (length (remove_stop_tokens_from_end S Ω') ≤
   length (remove_stop_tokens_from_end S Ω))%nat.
Proof.
  intros Hsub.
  destruct (remove_stop_tokens_from_end_split S Ω)
    as [->|(seg & Hin & [Hsuf Hnil] & Heq)].
  - apply remove_stop_tokens_from_end_length.
  - destruct (decide (seg = [])) as [->|Hne].
    + rewrite (Hnil eq_refl) at 2.
      pose proof (remove_stop_tokens_from_end_length S Ω') as Hle.
      rewrite (Hnil eq_refl) in Hle at 2. simpl in Hle.
      lia.
    + destruct (remove_stop_tokens_from_end_cut S Ω' seg)
        as (seg' & _ & _ & Hlen & Heq'); [by apply Hsub | done..|].
      apply (f_equal length) in Heq, Heq'. rewrite length_app in Heq, Heq'.
      lia.
Qed.

(** X2: the trimmer's result depends only on which stop sequences are
    registered, not on their order or on repetitions in the list. *)
Theorem remove_stop_tokens_from_end_set (S : list Z) (Ω Ω' : list (list Z)) :
  (∀ ω, ω ∈ Ω ↔ ω ∈ Ω') →
  remove_stop_tokens_from_end S Ω = remove_stop_tokens_from_end S Ω'.
Proof.
  intros Hsame.
  rewrite (remove_stop_tokens_from_end_take S Ω),
          (remove_stop_tokens_from_end_take S Ω').
  f_equal. apply Nat.le_antisymm.
  - apply remove_stop_tokens_from_end_mono. intros ω. apply Hsame.
  - apply remove_stop_tokens_from_end_mono. intros ω. apply Hsame.
Qed.

Lemma remove_stop_tokens_from_end_set_witness :
  remove_stop_tokens_from_end [1; 2; 3] [[3]; [2; 3]] =
  remove_stop_tokens_from_end [1; 2; 3] [[2; 3]; [3]; [3]].
Proof.
  apply (remove_stop_tokens_from_end_set [1; 2; 3] [[3]; [2; 3]] [[2; 3]; [3]; [3]]).
  intros ω. rewrite !elem_of_cons, !elem_of_nil. tauto.
Defined.

(** X3: the trimmer and the stop predicate agree.  On a sequence for which
    the predicate says "continue" the trimmer changes nothing; on one for
    which it says "halt" the trimmer cuts off a registered stop sequence,
    which is non-empty unless the sequence itself is empty. *)
Theorem StopWordsCriteria_call_then_trim
    {Scores : Type} (self : StopWordsCriteria)
    (ids : list Z) (rows : list (list Z)) (scores : Scores) :
  (StopWordsCriteria_call self (ids :: rows) scores = Ok false →
   remove_stop_tokens_from_end ids (stops self) = ids) ∧
  (StopWordsCriteria_call self (ids :: rows) scores = Ok true →
   ∃ seg, seg ∈ stops self ∧ seg `suffix_of` ids ∧
          ids = remove_stop_tokens_from_end ids (stops self) ++ seg ∧
          (ids ≠ [] → seg ≠ [])).
Proof.
  unfold StopWordsCriteria_call. split; intros [= Hhit].
  - unfold remove_stop_tokens_from_end. apply strip_first_hit_none.
    intros seg Hin%elem_of_sorted Hd.
    assert (any_stop_hit ids (stops self) = true) as Ht
      by (apply any_stop_hit_spec; by exists seg).
    congruence.
  - apply any_stop_hit_spec in Hhit as (stop & Hin & Hd).
    destruct (strip_first_hit_longest ids (sorted (λ x, - len x) (stops self)) stop)
      as (seg & Hseg & [Hsuf Hnil] & _ & Heq).
    + apply sorted_ordered.
    + by apply elem_of_sorted.
    + done.
    + exists seg. apply elem_of_sorted in Hseg.
      split; [done|]. split; [done|]. split.
      * unfold remove_stop_tokens_from_end. rewrite Heq.
        by apply detects_slice_to.
      * intros Hids ->. by apply Hids, Hnil.
Qed.

(** ** The stop predicate and the stop sequences it is built from *)

(** X4: the stop predicate has no priority order: its answer depends only
    on which stop sequences are registered, not on their order or on
    repetitions. *)
Theorem StopWordsCriteria_call_set
    {Scores : Type} (self self' : StopWordsCriteria)
    (input_ids : list (list Z)) (scores : Scores) :
  (∀ stop, stop ∈ stops self ↔ stop ∈ stops self') →
  StopWordsCriteria_call self input_ids scores =
  StopWordsCriteria_call self' input_ids scores.
Proof.
  intros Hsame. destruct input_ids as [|inputs rows]; [done|].
  unfold StopWordsCriteria_call. f_equal. apply eq_true_iff_eq.
  rewrite !any_stop_hit_spec.
  split; intros (stop & Hin & Hd); exists stop; (split; [by apply Hsame | done]).
Qed.

Lemma StopWordsCriteria_call_set_witness :
  StopWordsCriteria_call (mkStopWordsCriteria [[2]; [7; 8]]) [[1; 7; 8]] () =
  StopWordsCriteria_call (mkStopWordsCriteria [[7; 8]; [2]; [7; 8]]) [[1; 7; 8]] ().
Proof.
  apply (StopWordsCriteria_call_set
           (mkStopWordsCriteria [[2]; [7; 8]])
           (mkStopWordsCriteria [[7; 8]; [2]; [7; 8]])).
  intros stop. simpl. rewrite !elem_of_cons, !elem_of_nil. tauto.
Defined.

Lemma corrected_suffix (tok_ids : list Z) :
  corrected tok_ids `suffix_of` tok_ids ∧
  (length tok_ids ≤ S (length (corrected tok_ids)))%nat ∧
  (tok_ids ≠ [] → corrected tok_ids ≠ []).
Proof.
  unfold corrected. destruct tok_ids as [|a [|b rest]].
  - split; [done|]. split; [simpl; lia | done].
  - split; [done|]. split; [simpl; lia | done].
  - destruct (bool_decide (a = sentinel_quirk_id)).
    + split; [by exists [a]|]. split; [simpl; lia | done].
    + split; [done|]. split; [simpl; lia | done].
Qed.

(** X5: every stop sequence built by [generate_message] is a suffix of its
    marker's tokenization that lacks at most one id, and it is non-empty
    whenever the tokenization is: the quirk correction never empties a
    stop sequence. *)
Theorem stop_words_ids_suffix
    (encode : string → list Z) (kwargs_stops template_stops : list string) :
  Forall2
    (λ marker seq,
       seq `suffix_of` encode marker ∧
       (length (encode marker) ≤ S (length seq))%nat ∧
       (encode marker ≠ [] → seq ≠ []))
    (kwargs_stops ++ template_stops)
    (stop_words_ids encode kwargs_stops template_stops).
Proof.
  unfold stop_words_ids. rewrite stop_words_fold. simpl.
  apply Forall2_fmap_r, Forall_Forall2_diag, Forall_forall.
  intros marker _. apply corrected_suffix.
Qed.

Lemma stop_words_ids_elem
    (encode : string → list Z) (kwargs_stops template_stops : list string) seq :
  seq ∈ stop_words_ids encode kwargs_stops template_stops ↔
  ∃ marker, marker ∈ kwargs_stops ++ template_stops ∧
            seq = corrected (encode marker).
Proof.
  unfold stop_words_ids. rewrite stop_words_fold. simpl.
  rewrite list_elem_of_fmap. split.
  - intros (marker & Heq & Hin). by exists marker.
  - intros (marker & Hin & Heq). by exists marker.
Qed.

(** X6: when no marker tokenizes to the empty list, the predicate built
    from these stop sequences halts exactly when row 0 ends with one of
    them. *)
Theorem stop_words_ids_halt
    {Scores : Type} (encode : string → list Z)
    (kwargs_stops template_stops : list string)
    (ids : list Z) (rows : list (list Z)) (scores : Scores) :
  (∀ marker, marker ∈ kwargs_stops ++ template_stops → encode marker ≠ []) →
  StopWordsCriteria_call
    (mkStopWordsCriteria (stop_words_ids encode kwargs_stops template_stops))
    (ids :: rows) scores = Ok true ↔
  ∃ stop, stop ∈ stop_words_ids encode kwargs_stops template_stops ∧
          stop `suffix_of` ids.
Proof.
  intros Hne. unfold StopWordsCriteria_call. simpl. split.
  - intros [= Hhit]. apply any_stop_hit_spec in Hhit as (stop & Hin & Hd).
    exists stop. split; [done | apply Hd].
  - intros (stop & Hin & Hsuf). f_equal. apply any_stop_hit_spec.
    exists stop. split; [done|]. split; [done|]. intros ->.
    apply stop_words_ids_elem in Hin as (marker & Hm & Heq).
    exfalso. symmetry in Heq. revert Heq.
    by apply corrected_suffix, Hne.
Qed.

Lemma stop_words_ids_halt_witness :
  StopWordsCriteria_call
    (mkStopWordsCriteria (stop_words_ids demo_encode [] ["<|stop|>"; "<|from|>"]))
    [[5; 32002]] () = Ok true ↔
  ∃ stop, stop ∈ stop_words_ids demo_encode [] ["<|stop|>"; "<|from|>"] ∧
          stop `suffix_of` [5; 32002].
Proof.
  apply (stop_words_ids_halt demo_encode [] ["<|stop|>"; "<|from|>"]).
  intros marker _. unfold demo_encode.
  by destruct (bool_decide (marker = "<|stop|>")).
Defined.

(** ** Recovering the generated tokens *)

(** X7: line 203 of [generate_message] cuts as many ids off row 0 as the
    prompt is long: from a row that starts with the prompt it recovers
    exactly the generated tokens, and from a row no longer than the prompt
    it yields no tokens rather than an error. *)
Theorem generated_token_ids_row0
    (prompt row : list Z) (rows : list (list Z)) :
  (∀ p gen, row = p ++ gen → length p = length prompt →
            generated_token_ids prompt (row :: rows) = Ok gen) ∧
  ((length row ≤ length prompt)%nat →
   generated_token_ids prompt (row :: rows) = Ok []).
Proof.
  assert (generated_token_ids prompt (row :: rows) =
          Ok (drop (length prompt) row)) as ->.
  { unfold generated_token_ids. simpl. f_equal.
    unfold slice_from, clamp, len.
    destruct (Z.ltb_spec (Z.of_nat (length prompt)) 0); [lia|].
    destruct (Z.min_spec (Z.of_nat (length prompt)) (Z.of_nat (length row)))
      as [[Hlt ->]|[Hge ->]].
    - by rewrite Nat2Z.id.
    - rewrite Nat2Z.id. rewrite !drop_ge; [done | lia | done]. }
  split.
  - intros p gen -> <-. by rewrite drop_app_length.
  - intros Hle. by rewrite drop_ge.
Qed.

(** ** More on tool-choice resolution *)

Lemma tools_named_all fname (tools : list Tool) :
  ∀ t, t ∈ tools_named fname tools → name (function t) = fname.
Proof.
  intros t. rewrite tools_named_filter.
  by intros [Hn _]%list_elem_of_filter.
Qed.

Lemma tools_named_id fname (tools : list Tool) :
  (∀ t, t ∈ tools → name (function t) = fname) →
  tools_named fname tools = tools.
Proof.
  induction tools as [|u tools IH]; intros Hall; simpl; [done|].
  rewrite bool_decide_eq_true_2 by (apply Hall; left).
  rewrite IH; [done|]. intros t Ht. apply Hall. by right.
Qed.

(** X8: the resolver fails in two cases only, both for a bare-name tool
    choice: with a [TypeError] when the declared tool list is [None], and
    with [InvalidToolChoice] when the declared list has no tool of that
    name.  String policies and tool choices that carry a description or a
    parameter schema never fail. *)
Theorem enforce_tool_choice_raises
    (tool_choice : ToolChoice) (tools : option (list Tool)) (e : exn) :
  enforce_tool_choice tool_choice tools = Raise e ↔
  ∃ T, tool_choice = ChoiceTool T ∧ is_bare T = true ∧
       ((tools = None ∧ e = TypeError) ∨
        (∃ declared, tools = Some declared ∧
           (∀ t, t ∈ declared → name (function t) ≠ name (function T)) ∧
           e = InvalidToolChoice (name (function T)))).
Proof.
  split.
  - destruct tool_choice as [s|T].
    + simpl. by destruct (bool_decide (s = "none")).
    + destruct (is_bare T) eqn:Hbare;
        [|by unfold enforce_tool_choice; rewrite Hbare].
      destruct tools as [declared|].
      * rewrite (enforce_tool_choice_bare_eq T declared Hbare).
        destruct (tools_named _ declared) as [|u us] eqn:Hnamed; [|done].
        intros [= <-]. exists T. split; [done|]. split; [done|]. right.
        exists declared. split; [done|]. split; [|done].
        by apply tools_named_nil.
      * unfold enforce_tool_choice. rewrite Hbare.
        intros [= <-]. exists T. split; [done|]. split; [done|]. by left.
  - intros (T & -> & Hbare & [[-> ->]|(declared & -> & Hno & ->)]).
    + unfold enforce_tool_choice. by rewrite Hbare.
    + rewrite (enforce_tool_choice_bare_eq T declared Hbare).
      by rewrite (proj2 (tools_named_nil _ _) Hno).
Qed.

(** X9: whenever the resolver accepts an explicit tool choice T, bare or
    not, the effective tool list is non-empty and every tool in it has T's
    function name, the name that the prompt assembler forces. *)
Theorem enforce_tool_choice_forced_name
    (T : Tool) (tools effective : option (list Tool)) :
  enforce_tool_choice (ChoiceTool T) tools = Ok effective →
  ∃ ts, effective = Some ts ∧ ts ≠ [] ∧
        ∀ t, t ∈ ts → name (function t) = name (function T).
Proof.
  destruct (is_bare T) eqn:Hbare.
  - destruct tools as [declared|];
      [|by unfold enforce_tool_choice; rewrite Hbare].
    rewrite (enforce_tool_choice_bare_eq T declared Hbare).
    destruct (tools_named _ declared) as [|u us] eqn:Hnamed; [done|].
    intros [= <-]. exists (u :: us). split; [done|]. split; [done|].
    rewrite <- Hnamed. apply tools_named_all.
  - unfold enforce_tool_choice. rewrite Hbare.
    intros [= <-]. exists [T]. split; [done|]. split; [done|].
    by intros t ->%list_elem_of_singleton.
Qed.

Lemma enforce_tool_choice_forced_name_witness :
  ∃ ts, Some [get_weather; get_weather_v2] = Some ts ∧ ts ≠ [] ∧
        ∀ t, t ∈ ts → name (function t) = name (function bare_get_weather).
Proof.
  apply (enforce_tool_choice_forced_name bare_get_weather
           (Some [get_weather; python_tool; get_weather_v2])).
  reflexivity.
Defined.

(** X10: resolving is idempotent: feeding the resolver's result back in
    with the same tool choice returns that result again. *)
Theorem enforce_tool_choice_idempotent
    (tool_choice : ToolChoice) (tools effective : option (list Tool)) :
  enforce_tool_choice tool_choice tools = Ok effective →
  enforce_tool_choice tool_choice effective = Ok effective.
Proof.
  destruct tool_choice as [s|T].
  - simpl. destruct (bool_decide (s = "none")); by intros [= <-].
  - intros Hfirst.
    destruct (is_bare T) eqn:Hbare.
    + destruct (enforce_tool_choice_forced_name T tools effective Hfirst)
        as (ts & -> & Hne & Hall).
      rewrite (enforce_tool_choice_bare_eq T ts Hbare).
      rewrite (tools_named_id _ _ Hall). by destruct ts.
    + unfold enforce_tool_choice in *. rewrite Hbare in *.
      by injection Hfirst as <-.
Qed.

Lemma enforce_tool_choice_idempotent_witness :
  enforce_tool_choice (ChoiceTool bare_get_weather)
    (Some [get_weather; get_weather_v2])
  = Ok (Some [get_weather; get_weather_v2]).
Proof.
  apply (enforce_tool_choice_idempotent (ChoiceTool bare_get_weather)
           (Some [get_weather; python_tool; get_weather_v2])).
  reflexivity.
Defined.



Example enforce_tool_choice_undeclared :
  enforce_tool_choice (ChoiceTool python_tool) (Some [get_weather])
  = Ok (Some [python_tool]).
Proof. reflexivity. Qed.

(** ** More on the prompt assembler *)

Lemma comprehension_returns {A B : Type} (f : A → result B) (l : list A) :
  returns f → ∃ ys, comprehension f l = Ok ys.
Proof.
  intros Hf. induction l as [|x l [ys IH]]; [by exists []|].
  destruct (Hf x) as [y Hy]. exists (y :: ys). simpl. by rewrite Hy, IH.
Qed.

Lemma comprehension_Ok {A B : Type} (f : A → B) (l : list A) :
  comprehension (λ x, Ok (f x)) l = Ok (f <$> l).
Proof. induction l as [|x l IH]; [done|]. simpl. by rewrite IH. Qed.

Section prompt_exn_facts.
Context {Dict ChatMessage : Type}.
Variable message_dict : ChatMessage → result Dict.
Variable function_dict : Function → result Dict.
Variable tool_dict : Tool → result Dict.
Variable assistant_turn : Dict.
Variable get_prompt_template_from_tokenizer : result (PromptTemplate_exn Dict).
Variable tokenizer : string → result (list Z).
Variable to_device : list Z → result (list Z).

(** X12: a failure of the template lookup ends the assembler with that
    exception, whatever the arguments.  When the lookup and every other
    collaborator call return normally, the assembler itself fails in two
    cases only: a string policy other than ["auto"] and ["none"] raises
    [AttributeError] (the resolver, in contrast, treats such a string like
    ["auto"]), and policy ["none"] raises [IndexError] when the template
    has no predefined function name. *)
Theorem prepare_messages_for_inference_raises
    (messages : list ChatMessage)
    (functions : option (list Function)) (tools : option (list Tool))
    (tool_choice : option ToolChoice) (e : exn) :
  (get_prompt_template_from_tokenizer = Raise e →
   prepare_messages_for_inference_exn
     message_dict function_dict tool_dict assistant_turn
     get_prompt_template_from_tokenizer tokenizer to_device
     messages functions tools tool_choice = Raise e) ∧
  (∀ prompt_template names,
     get_prompt_template_from_tokenizer = Ok prompt_template →
     returns message_dict → returns function_dict → returns tool_dict →
     returns (pre_process_messages_before_inference_exn prompt_template) →
     (∀ msgs, returns (get_prompt_from_messages_exn prompt_template msgs)) →
     get_predefined_function_names_exn prompt_template = Ok names →
     returns (get_stop_token_for_function_parameter_exn prompt_template) →
     returns tokenizer → returns to_device →
     (prepare_messages_for_inference_exn
     message_dict function_dict tool_dict assistant_turn
     get_prompt_template_from_tokenizer tokenizer to_device
     messages functions tools tool_choice = Raise e ↔
      ∃ s, tool_choice = Some (ChoiceStr s) ∧ s ≠ "auto" ∧
           ((s = "none" ∧ names = [] ∧ e = IndexError) ∨
            (s ≠ "none" ∧ e = AttributeError)))).
Proof.
  unfold prepare_messages_for_inference_exn. split.
  { by intros ->. }
  intros pt names -> Hmsg Hfun Htool Hpre Hrender Hnames Hstop Htok Hdev.
  cbn [bind].
  destruct (comprehension_returns message_dict messages Hmsg) as [dm ->].
  cbn [bind].
  assert (∃ schema,
    match functions with
    | Some (f :: fs) => comprehension function_dict (f :: fs)
    | _ =>
        match tools with
        | Some (t :: ts) => comprehension tool_dict (t :: ts)
        | _ => Ok []
        end
    end = Ok schema) as [schema ->].
  { destruct functions as [[|f fs]|];
      [| by apply comprehension_returns |];
      (destruct tools as [[|t ts]|];
         [by exists [] | by apply comprehension_returns | by exists []]). }
  cbn [bind].
  destruct (Hpre (dm ++ [assistant_turn])) as [dm' ->]. cbn [bind].
  destruct (Hrender dm' schema) as [rendered ->]. cbn [bind].
  destruct (Hstop "function") as [stop_token Hst].
  destruct tool_choice as [[s|T]|].
  - destruct (decide (s = "auto")) as [->|Hauto].
    { rewrite bool_decide_eq_true_2 by done. cbn [bind].
      destruct (Htok rendered) as [ids ->]. cbn [bind].
      destruct (Hdev ids) as [ids' ->].
      split; [done|]. by intros (s & [= <-] & Hne & _). }
    rewrite (bool_decide_eq_false_2 _ Hauto).
    destruct (decide (s = "none")) as [->|Hnone].
    + rewrite bool_decide_eq_true_2 by done. rewrite Hnames. cbn [bind].
      destruct names as [|first others]; cbn [bind].
      * split.
        -- intros [= <-]. exists "none". split; [done|]. split; [done|].
           by left.
        -- by intros (s & [= <-] & _ & [(_ & _ & ->)|[? _]]).
      * rewrite Hst. cbn [bind].
        destruct (Htok ((rendered +:+ first) +:+ stop_token)) as [ids ->].
        cbn [bind]. destruct (Hdev ids) as [ids' ->].
        split; [done|].
        by intros (s & [= <-] & _ & [(_ & ? & _)|[? _]]).
    + rewrite (bool_decide_eq_false_2 _ Hnone). cbn [bind]. split.
      * intros [= <-]. exists s. split; [done|]. split; [done|]. by right.
      * by intros (s' & [= <-] & _ & [(? & _)|[_ ->]]).
  - rewrite Hst. cbn [bind].
    destruct (Htok ((rendered +:+ name (function T)) +:+ stop_token))
      as [ids ->].
    cbn [bind]. destruct (Hdev ids) as [ids' ->].
    split; [done|]. by intros (s & [=] & _).
  - cbn [bind]. destruct (Htok rendered) as [ids ->]. cbn [bind].
    destruct (Hdev ids) as [ids' ->].
    split; [done|]. by intros (s & [=] & _).
Qed.
End prompt_exn_facts.

(** With collaborators that return normally the two models of the
    assembler agree. *)
Lemma prepare_messages_for_inference_exn_returning
    {Dict ChatMessage : Type}
    (message_dict : ChatMessage → Dict) (function_dict : Function → Dict)
    (tool_dict : Tool → Dict) (assistant_turn : Dict)
    (prompt_template : PromptTemplate Dict) (tokenizer : string → list Z)
    (messages : list ChatMessage)
    (functions : option (list Function)) (tools : option (list Tool))
    (tool_choice : option ToolChoice) :
  prepare_messages_for_inference_exn
    (λ m, Ok (message_dict m)) (λ f, Ok (function_dict f))
    (λ t, Ok (tool_dict t)) assistant_turn
    (Ok (returning_template prompt_template))
    (λ text, Ok (tokenizer text)) (λ ids, Ok ids)
    messages functions tools tool_choice =
  prepare_messages_for_inference
    message_dict function_dict tool_dict assistant_turn prompt_template
    tokenizer messages functions tools tool_choice.
Proof.
  unfold prepare_messages_for_inference_exn, prepare_messages_for_inference,
    final_prompt, rendered_prompt.
  cbn [bind]. rewrite comprehension_Ok. cbn [bind].
  assert (
    match functions with
    | Some (f :: fs) => comprehension (λ f, Ok (function_dict f)) (f :: fs)
    | _ =>
        match tools with
        | Some (t :: ts) => comprehension (λ t, Ok (tool_dict t)) (t :: ts)
        | _ => Ok []
        end
    end = Ok
    match functions with
    | Some (f :: fs) => function_dict <$> (f :: fs)
    | _ =>
        match tools with
        | Some (t :: ts) => tool_dict <$> (t :: ts)
        | _ => []
        end
    end) as ->.
  { destruct functions as [[|f fs]|];
      [| by rewrite comprehension_Ok |];
      (destruct tools as [[|t ts]|];
         [done | by rewrite comprehension_Ok | done]). }
  cbn [bind]. destruct tool_choice as [[s|T]|]; [|done..].
  destruct (bool_decide (s = "auto")); [done|].
  destruct (bool_decide (s = "none")); [|done].
  cbn. by destruct (get_predefined_function_names prompt_template).
Qed.

Lemma prepare_messages_for_inference_raises_witness :
  prepare_messages_for_inference_exn
    (λ m : string, Ok m) (λ f, Ok (name f)) (λ t, Ok (name (function t)))
    "<|assistant|>" (Ok (returning_template demo_template))
    (λ _, Ok [1]) (λ ids, Ok ids)
    ["<|user|>Hi"] None None (Some (ChoiceStr "required"))
  = Raise AttributeError.
Proof.
  destruct (prepare_messages_for_inference_raises
              (λ m : string, Ok m) (λ f, Ok (name f))
              (λ t, Ok (name (function t)))
              "<|assistant|>" (Ok (returning_template demo_template))
              (λ _, Ok [1]) (λ ids, Ok ids)
              ["<|user|>Hi"] None None (Some (ChoiceStr "required"))
              AttributeError) as [_ H].
  assert (∀ {A B : Type} (f : A → B), returns (λ x, Ok (f x))) as Hret.
  { intros A B f x. by exists (f x). }
  apply (H (returning_template demo_template) ["all"; "python"] eq_refl
           (Hret _ _ _) (Hret _ _ _) (Hret _ _ _) (Hret _ _ _)
           (λ msgs, Hret _ _ _) eq_refl (Hret _ _ _) (Hret _ _ _)
           (Hret _ _ _)).
  exists "required". split; [done|]. split; [done|]. by right.
Defined.

Section prompt_more.
Context {Dict ChatMessage : Type}.
Variable message_dict : ChatMessage → Dict.
Variable function_dict : Function → Dict.
Variable tool_dict : Tool → Dict.
Variable assistant_turn : Dict.
Variable prompt_template : PromptTemplate Dict.
Variable tokenizer : string → list Z.

(** X13: without a tool choice, the assembler tokenizes what the template
    renders from the pre-processed conversation, closed by the open
    assistant turn, and one schema list: the dicts of the functions when
    that list is non-empty, whatever the tools are; otherwise the dicts of
    the tools when that list is non-empty; otherwise the empty list.  An
    empty list counts as [None]. *)
Theorem prepare_messages_for_inference_precedence
    (messages : list ChatMessage) :
  (∀ f fs tools,
     prepare_messages_for_inference
       message_dict function_dict tool_dict assistant_turn prompt_template
       tokenizer messages (Some (f :: fs)) tools None =
     Ok (tokenizer
           (get_prompt_from_messages prompt_template
              (pre_process_messages_before_inference prompt_template
                 ((message_dict <$> messages) ++ [assistant_turn]))
              (function_dict <$> (f :: fs))))) ∧
  (∀ functions t ts,
     functions = None ∨ functions = Some [] →
     prepare_messages_for_inference
       message_dict function_dict tool_dict assistant_turn prompt_template
       tokenizer messages functions (Some (t :: ts)) None =
     Ok (tokenizer
           (get_prompt_from_messages prompt_template
              (pre_process_messages_before_inference prompt_template
                 ((message_dict <$> messages) ++ [assistant_turn]))
              (tool_dict <$> (t :: ts))))) ∧
  (∀ functions tools,
     functions = None ∨ functions = Some [] →
     tools = None ∨ tools = Some [] →
     prepare_messages_for_inference
       message_dict function_dict tool_dict assistant_turn prompt_template
       tokenizer messages functions tools None =
     Ok (tokenizer
           (get_prompt_from_messages prompt_template
              (pre_process_messages_before_inference prompt_template
                 ((message_dict <$> messages) ++ [assistant_turn]))
              []))).
Proof.
  unfold prepare_messages_for_inference, final_prompt, rendered_prompt.
  split; [done|]. split.
  - by intros functions t ts [-> | ->].
  - by intros functions tools [-> | ->] [-> | ->].
Qed.
End prompt_more.

Example prepare_messages_for_inference_unknown_policy :
  prepare_messages_for_inference id name (name ∘ function) "<|assistant|>"
    demo_template (λ _, [1]) ["<|user|>Hi"] None None
    (Some (ChoiceStr "required"))
  = Raise AttributeError.
Proof. reflexivity. Qed.

Example prepare_messages_for_inference_functions_first :
  prepare_messages_for_inference id name (name ∘ function) "<|assistant|>"
    (mkPromptTemplate string (λ msgs, msgs)
       (λ msgs schema, foldr String.append "" (msgs ++ schema))
       ["all"] (λ _, "<|content|>"))
    (λ text, [Z.of_nat (String.length text)])
    ["<|user|>Hi"] (Some [function get_weather]) (Some [python_tool]) None
  = Ok [34].
Proof. reflexivity. Qed.

(** ** One code interpreter per call *)

Lemma filter_code_interpreter_none (ts : list Tool) :
  (∀ u, u ∈ ts → type u ≠ "code_interpreter") →
  filter (λ t, type t = "code_interpreter") ts = [].
Proof.
  induction ts as [|u ts IH]; intros Hno; [done|].
  rewrite filter_cons_False by (apply Hno; left).
  apply IH. intros v Hv. apply Hno. by right.
Qed.

(** X14: a call replaces exactly one entry, the first code-interpreter
    entry, by the python tool and leaves every other entry at its index:
    the list keeps its length, and the code-interpreter entries it holds
    afterwards are exactly those that followed the first one (none if
    there was none), so a list with several of them keeps all but the
    first. *)
Theorem enforce_code_interpreter_one_fewer
    (σ : store) (l : loc) (ts : list Tool) :
  σ !! l = Some ts →
  ∃ (σ' : store) (ts' : list Tool),
    enforce_code_interpreter (Some l) σ = Ok (Some l, σ') ∧
    σ' !! l = Some ts' ∧
    length ts' = length ts ∧
    filter (λ t, type t = "code_interpreter") ts' =
      tail (filter (λ t, type t = "code_interpreter") ts) ∧
    (∀ i u, ts !! i = Some u →
       type u = "code_interpreter" →
       (∀ j v, (j < i)%nat → ts !! j = Some v → type v ≠ "code_interpreter") →
       ts' !! i = Some python_tool) ∧
    (∀ i u, ts !! i = Some u →
       (type u ≠ "code_interpreter" ∨
        ∃ j v, (j < i)%nat ∧ ts !! j = Some v ∧ type v = "code_interpreter") →
       ts' !! i = Some u).
Proof.
  intros Hl.
  destruct (first_code_interpreter ts) as [Hno|(pre & t & post & -> & Ht & Hpre)].
  - exists σ, ts. split; [by eapply enforce_code_interpreter_absent|].
    split; [done|]. split; [done|].
    split; [by rewrite filter_code_interpreter_none|]. split; [|done].
    intros i u Hi Hu _. apply list_elem_of_lookup_2 in Hi.
    by destruct (Hno u Hi).
  - exists (<[l := pre ++ python_tool :: post]> σ), (pre ++ python_tool :: post).
    split; [by apply (enforce_code_interpreter_first l pre post t)|].
    split; [by rewrite lookup_insert_eq|].
    split; [by rewrite !length_app|]. split; [|split].
    + rewrite !filter_app, (filter_code_interpreter_none pre Hpre).
      rewrite filter_cons_False by done.
      by rewrite filter_cons_True.
    + intros i u Hi Hu Hfirst.
      destruct (Nat.lt_trichotomy i (length pre)) as [Hlt|[->|Hgt]].
      * rewrite lookup_app_l in Hi by done.
        apply list_elem_of_lookup_2 in Hi. by destruct (Hpre u Hi).
      * by rewrite list_lookup_middle.
      * destruct (Hfirst (length pre) t Hgt); [|done].
        by rewrite list_lookup_middle.
    + intros i u Hi Hstay.
      destruct (Nat.lt_trichotomy i (length pre)) as [Hlt|[->|Hgt]].
      * rewrite lookup_app_l in Hi by done. by rewrite lookup_app_l.
      * rewrite list_lookup_middle in Hi by done. injection Hi as <-.
        destruct Hstay as [Hu|(j & v & Hj & Hv & Htv)]; [done|].
        rewrite lookup_app_l in Hv by done.
        apply list_elem_of_lookup_2 in Hv. by destruct (Hpre v Hv).
      * rewrite lookup_app_r in Hi by lia. rewrite lookup_app_r by lia.
        destruct (i - length pre)%nat as [|k] eqn:Hk; [lia|]. done.
Qed.

Lemma enforce_code_interpreter_one_fewer_witness :
  ∃ (σ' : store) (ts' : list Tool),
    enforce_code_interpreter (Some 1%positive)
      {[ 1%positive := [code_interpreter; get_weather; code_interpreter] ]}
    = Ok (Some 1%positive, σ') ∧
    σ' !! 1%positive = Some ts' ∧
    filter (λ t, type t = "code_interpreter") ts' =
      tail (filter (λ t, type t = "code_interpreter")
              [code_interpreter; get_weather; code_interpreter]) ∧
    ts' !! 0%nat = Some python_tool ∧
    ts' !! 2%nat = Some code_interpreter.
Proof.
  destruct (enforce_code_interpreter_one_fewer
              {[ 1%positive := [code_interpreter; get_weather; code_interpreter] ]}
              1%positive [code_interpreter; get_weather; code_interpreter])
    as (σ' & ts' & Hcall & Hl' & _ & Hfilter & Hfirst & Hstay).
  { by rewrite lookup_singleton_eq. }
  exists σ', ts'. split; [exact Hcall|]. split; [exact Hl'|].
  split; [exact Hfilter|]. split.
  - apply (Hfirst 0%nat code_interpreter); [done | done |].
    intros j v Hj. lia.
  - apply (Hstay 2%nat code_interpreter); [done|].
    right. exists 0%nat, code_interpreter. split; [lia | done].
Defined.
